(** * rtl_sdr.c: the streaming gain-control engine

    A shallow embedding of the gain-control parts of [src/rtl_sdr.c]:
    the power look-up table ([dbfs_lut_init]), the window peak estimator
    inside [rtlsdr_callback], the error accumulator ([update_gain_pid]),
    the actuator loop ([set_new_gain_thread]) and the gain set-up done by
    [main].  C [int] values are integers of [Z] with the 32-bit
    wrap-around written out; the C globals form one record that every
    function threads through. *)

From Stdlib Require Import ZArith List Bool Lia Reals Lra.
From Stdlib Require Import Strings.Byte.
Import ListNotations.
Open Scope Z_scope.

(* ================================================================== *)
(** * Definitions *)
(* ================================================================== *)

(** ** C integers *)

Module CInt.

Definition INT_MIN : Z := -2147483648.
Definition INT_MAX : Z := 2147483647.

(** The values an [int] can hold. *)
Definition int_range (z : Z) : Prop := INT_MIN <= z <= INT_MAX.

(** Two's-complement reduction of a mathematical result to an [int]. *)
Definition wrap (z : Z) : Z := (z + 2 ^ 31) mod 2 ^ 32 - 2 ^ 31.

Definition add (a b : Z) : Z := wrap (a + b).
Definition sub (a b : Z) : Z := wrap (a - b).

(** C division truncates toward zero. *)
Definition div (a b : Z) : Z := Z.quot a b.

End CInt.

(** ** The power look-up table *)

(** [#define DBFS_MIN (-480)] *)
Definition DBFS_MIN : Z := -480.

(** [static int dbfs_lut[256][256]], as a function of its two indices. *)
Definition table : Type := Z -> Z -> Z.

(** [dbfs_lut[i][q] = v] *)
Definition lut_store (t : table) (i q v : Z) : table :=
  fun i' q' => if (i' =? i) && (q' =? q) then v else t i' q'.

(** The conversion of a floating value to [int]: the fraction is
    discarded, so the value is truncated toward zero. *)
Definition float_to_int (r : R) : Z :=
  if Rle_dec 0 r then Int_part r else - Int_part (- r).

(** [100 * logf((float)mag / 16384.0)].  The magnitudes are below 2^24
    and 16384 is a power of two, so the quotient is exact; [logf] and the
    product are taken at their real values. *)
Definition scaled_log (mag : Z) : R :=
  (100 * ln (IZR mag / 16384))%R.

(** [for (v = start; ...; v++) body], run for [n] rounds. *)
Fixpoint for_loop {St : Type} (n : nat) (v : Z) (body : Z -> St -> St)
    (s : St) : St :=
  match n with
  | O => s
  | S n' => for_loop n' (v + 1) body (body v s)
  end.

(** The value the inner loop of [dbfs_lut_init] computes for column [q]. *)
Definition dbfs_value (centered_i_squared q : Z) : Z :=
  let centered_q := q - 128 in
  let mag := centered_i_squared + centered_q * centered_q in
  if 0 <? mag then float_to_int (scaled_log mag) else DBFS_MIN.

(** The body of the inner loop of [dbfs_lut_init]. *)
Definition dbfs_lut_cell (i centered_i_squared q : Z) (t : table) : table :=
  lut_store t i q (dbfs_value centered_i_squared q).

(** The body of the outer loop of [dbfs_lut_init]. *)
Definition dbfs_lut_row (i : Z) (t : table) : table :=
  let centered_i := i - 158 in
  let centered_i_squared := centered_i * centered_i in
  for_loop 256 0 (dbfs_lut_cell i centered_i_squared) t.

(** [dbfs_lut_init], from the array as it was to the array as it leaves it. *)
Definition dbfs_lut_init (t : table) : table :=
  for_loop 256 0 dbfs_lut_row t.

(** The array before [dbfs_lut_init] runs: static storage is zeroed. *)
Definition lut_zero : table := fun _ _ => 0.

(** ** The globals of the program *)

Record globals : Type := mkGlobals {
  dbfs_lut : table;        (* static int dbfs_lut[256][256] *)
  do_exit : Z;             (* static int do_exit *)
  bytes_to_read : Z;       (* static uint64_t bytes_to_read *)
  target_dbfs : Z;         (* static int target_dbfs *)
  current_gain : Z;        (* static int current_gain *)
  max_samples : Z;         (* static int max_samples *)
  sample_index : Z;        (* static int sample_index *)
  max_dbfs : Z;            (* static int max_dbfs *)
  event_count : Z;         (* the counter behind the descriptor max_event *)
  delta_gain : Z;          (* int delta_gain *)
  pid_somme : Z;           (* int pid_somme *)
  gain_count : Z;          (* int gain_count *)
  gains : list Z;          (* int gains[100] *)
  gain_index : Z           (* int gain_index *)
}.

Definition set_dbfs_lut (v : table) (g : globals) : globals :=
  mkGlobals v (do_exit g) (bytes_to_read g) (target_dbfs g) (current_gain g)
    (max_samples g) (sample_index g) (max_dbfs g) (event_count g)
    (delta_gain g) (pid_somme g) (gain_count g) (gains g) (gain_index g).

Definition set_do_exit (v : Z) (g : globals) : globals :=
  mkGlobals (dbfs_lut g) v (bytes_to_read g) (target_dbfs g) (current_gain g)
    (max_samples g) (sample_index g) (max_dbfs g) (event_count g)
    (delta_gain g) (pid_somme g) (gain_count g) (gains g) (gain_index g).

Definition set_bytes_to_read (v : Z) (g : globals) : globals :=
  mkGlobals (dbfs_lut g) (do_exit g) v (target_dbfs g) (current_gain g)
    (max_samples g) (sample_index g) (max_dbfs g) (event_count g)
    (delta_gain g) (pid_somme g) (gain_count g) (gains g) (gain_index g).

Definition set_target_dbfs (v : Z) (g : globals) : globals :=
  mkGlobals (dbfs_lut g) (do_exit g) (bytes_to_read g) v (current_gain g)
    (max_samples g) (sample_index g) (max_dbfs g) (event_count g)
    (delta_gain g) (pid_somme g) (gain_count g) (gains g) (gain_index g).

Definition set_current_gain (v : Z) (g : globals) : globals :=
  mkGlobals (dbfs_lut g) (do_exit g) (bytes_to_read g) (target_dbfs g) v
    (max_samples g) (sample_index g) (max_dbfs g) (event_count g)
    (delta_gain g) (pid_somme g) (gain_count g) (gains g) (gain_index g).

Definition set_max_samples (v : Z) (g : globals) : globals :=
  mkGlobals (dbfs_lut g) (do_exit g) (bytes_to_read g) (target_dbfs g)
    (current_gain g) v (sample_index g) (max_dbfs g) (event_count g)
    (delta_gain g) (pid_somme g) (gain_count g) (gains g) (gain_index g).

Definition set_sample_index (v : Z) (g : globals) : globals :=
  mkGlobals (dbfs_lut g) (do_exit g) (bytes_to_read g) (target_dbfs g)
    (current_gain g) (max_samples g) v (max_dbfs g) (event_count g)
    (delta_gain g) (pid_somme g) (gain_count g) (gains g) (gain_index g).

Definition set_max_dbfs (v : Z) (g : globals) : globals :=
  mkGlobals (dbfs_lut g) (do_exit g) (bytes_to_read g) (target_dbfs g)
    (current_gain g) (max_samples g) (sample_index g) v (event_count g)
    (delta_gain g) (pid_somme g) (gain_count g) (gains g) (gain_index g).

Definition set_event_count (v : Z) (g : globals) : globals :=
  mkGlobals (dbfs_lut g) (do_exit g) (bytes_to_read g) (target_dbfs g)
    (current_gain g) (max_samples g) (sample_index g) (max_dbfs g) v
    (delta_gain g) (pid_somme g) (gain_count g) (gains g) (gain_index g).

Definition set_delta_gain (v : Z) (g : globals) : globals :=
  mkGlobals (dbfs_lut g) (do_exit g) (bytes_to_read g) (target_dbfs g)
    (current_gain g) (max_samples g) (sample_index g) (max_dbfs g)
    (event_count g) v (pid_somme g) (gain_count g) (gains g) (gain_index g).

Definition set_pid_somme (v : Z) (g : globals) : globals :=
  mkGlobals (dbfs_lut g) (do_exit g) (bytes_to_read g) (target_dbfs g)
    (current_gain g) (max_samples g) (sample_index g) (max_dbfs g)
    (event_count g) (delta_gain g) v (gain_count g) (gains g) (gain_index g).

Definition set_gain_count (v : Z) (g : globals) : globals :=
  mkGlobals (dbfs_lut g) (do_exit g) (bytes_to_read g) (target_dbfs g)
    (current_gain g) (max_samples g) (sample_index g) (max_dbfs g)
    (event_count g) (delta_gain g) (pid_somme g) v (gains g) (gain_index g).

Definition set_gains (v : list Z) (g : globals) : globals :=
  mkGlobals (dbfs_lut g) (do_exit g) (bytes_to_read g) (target_dbfs g)
    (current_gain g) (max_samples g) (sample_index g) (max_dbfs g)
    (event_count g) (delta_gain g) (pid_somme g) (gain_count g) v (gain_index g).

Definition set_gain_index (v : Z) (g : globals) : globals :=
  mkGlobals (dbfs_lut g) (do_exit g) (bytes_to_read g) (target_dbfs g)
    (current_gain g) (max_samples g) (sample_index g) (max_dbfs g)
    (event_count g) (delta_gain g) (pid_somme g) (gain_count g) (gains g) v.

(** The globals as their initialisers leave them at program start. *)
Definition globals_at_start : globals :=
  {| dbfs_lut := lut_zero; do_exit := 0; bytes_to_read := 0;
     target_dbfs := 0; current_gain := 0; max_samples := 0;
     sample_index := 0; max_dbfs := DBFS_MIN; event_count := 0;
     delta_gain := 0; pid_somme := 0; gain_count := 0;
     gains := repeat 0 100; gain_index := 1 |}.

(** ** The event descriptor *)

(** [signal_event]: the write adds one to the counter; a write that would
    take the counter past its largest value fails and leaves it. *)
Definition signal_event (g : globals) : globals :=
  if event_count g + 1 <=? 2 ^ 64 - 2
  then set_event_count (event_count g + 1) g
  else g.

(** [clear_event]: the read takes the whole counter, leaving zero; on a
    zero counter the non-blocking read fails and leaves it. *)
Definition clear_event (g : globals) : globals :=
  set_event_count 0 g.

(** [create_event]: a fresh counter at zero. *)
Definition create_event (g : globals) : globals :=
  set_event_count 0 g.

(** ** The error accumulator *)

(** [update_gain_pid]: [pid_somme += delta]. *)
Definition update_gain_pid (delta : Z) (g : globals) : globals :=
  set_pid_somme (CInt.add (pid_somme g) delta) g.

(** ** The window peak estimator *)

Definition byte_val (b : byte) : Z := Z.of_N (Byte.to_N b).

(** The score [dbfs_lut[buf[0]][buf[1]]] of the first pair of a block. *)
Definition first_level (buf : list byte) (g : globals) : Z :=
  dbfs_lut g (byte_val (nth 0 buf x00)) (byte_val (nth 1 buf x00)).

(** The [else] branch taken when [sample_index] is not positive: the
    window is closed and its peak handed to the accumulator. *)
Definition close_window (g : globals) : globals :=
  let g := set_delta_gain (CInt.sub (target_dbfs g) (max_dbfs g)) g in
  let g := update_gain_pid (delta_gain g) g in
  let g := signal_event g in
  let g := set_sample_index (CInt.sub (max_samples g) 1) g in
  set_max_dbfs DBFS_MIN g.

(** One round of the [while (n--)] loop of [rtlsdr_callback].  The
    pointer [p] is declared in the loop body and initialised to [buf]
    there, so every round reads the bytes at offsets 0 and 1.  The second
    component lists the peaks handed over in this round. *)
Definition callback_round (buf : list byte) (g : globals) : globals * list Z :=
  let '(g1, obs) :=
    if 0 <? sample_index g
    then (set_sample_index (CInt.sub (sample_index g) 1) g, [])
    else (close_window g, [max_dbfs g]) in
  let i := byte_val (nth 0 buf x00) in
  let q := byte_val (nth 1 buf x00) in
  let level := dbfs_lut g1 i q in
  (if max_dbfs g1 <? level then set_max_dbfs level g1 else g1, obs).

(** The [while (n--)] loop. *)
Fixpoint callback_loop (n : nat) (buf : list byte) (g : globals)
  : globals * list Z :=
  match n with
  | O => (g, [])
  | S n' =>
      let '(g1, o1) := callback_round buf g in
      let '(g2, o2) := callback_loop n' buf g1 in
      (g2, o1 ++ o2)
  end.

(** [rtlsdr_callback buf len ctx].  Writing the block to the sink and
    cancelling the transfer act outside the globals. *)
Definition rtlsdr_callback (buf : list byte) (len : Z) (ctx : bool)
    (g : globals) : globals * list Z :=
  if ctx then
    if do_exit g =? 0 then
      let '(len, g) :=
        if (0 <? bytes_to_read g) && (bytes_to_read g <? len)
        then (bytes_to_read g, set_do_exit 1 g)
        else (len, g) in
      let '(g, obs) :=
        if target_dbfs g <? 0
        then callback_loop (Z.to_nat (len / 2)) buf g
        else (g, []) in
      let g :=
        if 0 <? bytes_to_read g
        then set_bytes_to_read (bytes_to_read g - len) g
        else g in
      (g, obs)
    else (g, [])
  else (g, []).

(** ** The gain actuator thread *)

(** What the thread does that is visible outside the globals. *)
Inductive thread_event : Type :=
| EvSelect (tv_sec tv_usec : Z)   (* select(max_event + 1, ..., &timeout) *)
| EvGainSet (gain : Z).           (* verbose_gain_set(dev, gain) *)

(** [gains[i]]; the array has 100 cells, and a read outside them, which
    C leaves undefined, is given the value 0. *)
Definition gain_at (gs : list Z) (i : Z) : Z :=
  if (0 <=? i) && (i <? 100) then nth (Z.to_nat i) gs 0 else 0.

(** [if (pid_somme > 300) { pid_somme -= 300; new_gain_index++; }] *)
Definition check_increase (g : globals) (new_gain_index : Z) : globals * Z :=
  if 300 <? pid_somme g
  then (set_pid_somme (CInt.sub (pid_somme g) 300) g, CInt.add new_gain_index 1)
  else (g, new_gain_index).

(** [if (pid_somme < -300) { pid_somme += 300; new_gain_index--; }] *)
Definition check_decrease (g : globals) (new_gain_index : Z) : globals * Z :=
  if pid_somme g <? -300
  then (set_pid_somme (CInt.add (pid_somme g) 300) g, CInt.sub new_gain_index 1)
  else (g, new_gain_index).

(** The two tests on [pid_somme], in their order, acting on the
    accumulator and on the local [new_gain_index]. *)
Definition check_pid (g : globals) (new_gain_index : Z) : globals * Z :=
  let '(g, new_gain_index) := check_increase g new_gain_index in
  check_decrease g new_gain_index.

(** Whether the first test succeeds, and whether the second one does on
    the accumulator the first one leaves. *)
Definition increase_fires (g : globals) : bool := 300 <? pid_somme g.
Definition decrease_fires (g : globals) : bool :=
  pid_somme (fst (check_increase g (gain_index g))) <? -300.

(** "Ensure new_gain_index points to a usable gain". *)
Definition usable_index (g : globals) (new_gain_index : Z) : Z :=
  if new_gain_index <? 1 then 1
  else if CInt.sub (gain_count g) 1 <? new_gain_index
       then CInt.sub (gain_count g) 1
       else new_gain_index.

Section Actuator.

(** [verbose_gain_set(dev, gain)] of the convenience library: the
    status it returns for a requested gain.  The thread calls it and
    drops the status. *)
Variable verbose_gain_set : Z -> Z.

(** The last [if] of the loop body. *)
Definition apply_index (g : globals) (new_gain_index : Z)
  : globals * list thread_event :=
  if negb (new_gain_index =? gain_index g) then
    let g := set_current_gain (gain_at (gains g) new_gain_index) g in
    let _ := verbose_gain_set (current_gain g) in
    (set_gain_index new_gain_index g, [EvGainSet (current_gain g)])
  else (g, []).

(** The body run when [select] reported the descriptor readable. *)
Definition actuator_wake (g : globals) : globals * list thread_event :=
  let new_gain_index := gain_index g in
  let g := clear_event g in
  let '(g, new_gain_index) := check_pid g new_gain_index in
  let new_gain_index := usable_index g new_gain_index in
  apply_index g new_gain_index.

(** One round of the [do ... while] loop, up to its test; [selected]
    is what [select] returned. *)
Definition thread_round (selected : Z) (g : globals)
  : globals * list thread_event :=
  let '(g, evs) :=
    if 0 <? selected then actuator_wake g else (g, []) in
  (g, EvSelect 1 0 :: evs).

(** What the rest of the program contributes to one round: the value
    [select] returns, and whether [do_exit = 1] has been executed
    elsewhere (signal handler, callback) by the time the loop test
    reads the flag. *)
Record round_env : Type := mkRoundEnv {
  selected : Z;
  exit_requested : bool
}.

Inductive thread_status : Type :=
| Returned    (* the loop test failed and the thread function returned *)
| Looping.    (* the test succeeded on every round supplied so far *)

(** [set_new_gain_thread] run against the rounds the environment
    supplies.  The test [0 == do_exit] comes after the body. *)
Fixpoint set_new_gain_thread (env : list round_env) (g : globals)
  : thread_status * globals * list thread_event :=
  match env with
  | [] => (Looping, g, [])
  | e :: env' =>
      let '(g1, evs) := thread_round (selected e) g in
      let g2 := if exit_requested e then set_do_exit 1 g1 else g1 in
      if do_exit g2 =? 0 then
        let '(st, g3, evs') := set_new_gain_thread env' g2 in
        (st, g3, evs ++ evs')
      else (Returned, g2, evs)
  end.

(** [max_thread_init]: the descriptor is created; the thread then runs
    on its own. *)
Definition max_thread_init (g : globals) : globals := create_event g.

(** ** Gain set-up in [main] *)

(** What [main] asks of the tuner while it sets the gain up. *)
Inductive setup_event : Type :=
| SetupAutoGain              (* verbose_auto_gain(dev) *)
| SetupGainSet (gain : Z).   (* verbose_gain_set(dev, gain) *)

(** The gain values [rtlsdr_get_tuner_gains] reports for the tuner. *)
Variable tuner_gains : list Z.

(** [nearest_gain(dev, gain)] of the convenience library. *)
Variable nearest_gain : Z -> Z.

(** [rtlsdr_get_tuner_gains(dev, gains)]: the values are copied to the
    front of the array. *)
Definition copy_tuner_gains (gs : list Z) : list Z :=
  tuner_gains ++ skipn (length tuner_gains) gs.

(** [initialize_gains] *)
Definition initialize_gains (g : globals) : globals :=
  let g := set_gain_count (Z.of_nat (length tuner_gains)) g in
  let g := set_gains (copy_tuner_gains (gains g)) g in
  let g := set_gain_count (Z.of_nat (length tuner_gains)) g in
  set_gain_index (CInt.div (gain_count g) 2) g.

(** [#define MAX_HZ (5)] *)
Definition MAX_HZ : Z := 5.

(** The [if (0 == gain) ... else ...] of [main]; [gain] is the value of
    option [-g] in tenths and [samp_rate] the global of that name. *)
Definition main_gain_setup (gain samp_rate : Z) (g : globals)
  : globals * list setup_event :=
  if gain =? 0 then (g, [SetupAutoGain])
  else if 0 <? gain then
    let gain := nearest_gain gain in
    let _ := verbose_gain_set gain in
    (g, [SetupGainSet gain])
  else
    let g := initialize_gains g in
    let g := set_current_gain (gain_at (gains g) (gain_index g)) g in
    let _ := verbose_gain_set (current_gain g) in
    let ev := SetupGainSet (current_gain g) in
    let g := set_target_dbfs gain g in
    let g := set_max_samples (CInt.div samp_rate MAX_HZ) g in
    let g := set_sample_index (max_samples g) g in
    let g := set_dbfs_lut (dbfs_lut_init (dbfs_lut g)) g in
    let g := max_thread_init g in
    (g, [ev]).

End Actuator.

(** ** The specification's words, for comparison with the code *)

Module Spec.

(** "centered magnitude m = (i-158)^2 + (q-128)^2" *)
Definition magnitude (i q : Z) : Z := (i - 158) ^ 2 + (q - 128) ^ 2.

(** Rounding to the nearest integer, halves away from zero. *)
Definition round (r : R) : Z :=
  if Rle_dec 0 r then Int_part (r + / 2) else - Int_part (- r + / 2).

(** "If m == 0, store the fixed minimum sentinel.  Otherwise store
    round(100 * ln(m / 16384.0))." *)
Definition table_entry (i q : Z) : Z :=
  let m := magnitude i q in
  if m =? 0 then DBFS_MIN else round (100 * ln (IZR m / 16384)).

(** The I/Q pairs of a block, in order. *)
Fixpoint pairs (buf : list byte) : list (Z * Z) :=
  match buf with
  | i :: q :: rest => (byte_val i, byte_val q) :: pairs rest
  | _ => []
  end.

(** "the maximum of the previous running peak and the table scores of
    every pair in that block" *)
Definition block_peak (t : table) (previous : Z) (buf : list byte) : Z :=
  fold_left (fun m p => Z.max m (t (fst p) (snd p))) (pairs buf) previous.

Inductive GainStep : Type := Increase | Decrease.

(** "the fixed positive threshold (300)" *)
Definition threshold : Z := 300.



(** "re-deriving the step from the shared accumulator state" *)
Definition pending_step (acc : Z) : option GainStep :=
  if threshold <? acc then Some Increase
  else if acc <? - threshold then Some Decrease
  else None.

(** The move along the gain table a step stands for. *)
Definition step_value (s : option GainStep) : Z :=
  match s with
  | Some Increase => 1
  | Some Decrease => -1
  | None => 0
  end.


End Spec.

(** ** Runs assembled from the code *)

(** Successive deliveries of blocks to the callback. *)
Fixpoint deliver (blocks : list (list byte * Z)) (g : globals)
  : globals * list Z :=
  match blocks with
  | [] => (g, [])
  | (buf, len) :: rest =>
      let '(g1, o1) := rtlsdr_callback buf len true g in
      let '(g2, o2) := deliver rest g1 in
      (g2, o1 ++ o2)
  end.

(** The value of the local [new_gain_index] when the last [if] of the
    actuator body is reached. *)
Definition new_index (g : globals) : Z :=
  let '(g1, n) := check_pid (clear_event g) (gain_index g) in
  usable_index g1 n.

(** The index points into the part of the gain table gain control uses. *)
Definition index_in_table (g : globals) : Prop :=
  1 <= gain_index g <= gain_count g - 1.

(** The waits and the gain writes among the events of the thread. *)
Definition is_select (e : thread_event) : bool :=
  match e with EvSelect _ _ => true | EvGainSet _ => false end.

Definition is_gain_set (e : thread_event) : bool :=
  match e with EvSelect _ _ => false | EvGainSet _ => true end.

(** The rounds in which nobody has asked the session to end. *)
Definition no_exit_request (env : list round_env) : Prop :=
  Forall (fun e => exit_requested e = false) env.

(** The globals the estimator loop reads but never writes. *)
Definition estimator_frame (g g' : globals) : Prop :=
  dbfs_lut g' = dbfs_lut g /\ do_exit g' = do_exit g /\
  bytes_to_read g' = bytes_to_read g /\ target_dbfs g' = target_dbfs g /\
  max_samples g' = max_samples g /\ gain_count g' = gain_count g /\
  gains g' = gains g /\ gain_index g' = gain_index g /\
  current_gain g' = current_gain g.

(** A block of [n] copies of one I/Q pair. *)
Fixpoint iq_block (i q : byte) (n : nat) : list byte :=
  match n with
  | O => []
  | S n' => i :: q :: iq_block i q n'
  end.

(** The gain values of the R820T tuner, in tenths of a dB. *)
Definition r820t_gains : list Z :=
  [0; 9; 14; 27; 37; 77; 87; 125; 144; 157; 166; 197; 207; 229; 254; 280;
   297; 328; 338; 364; 372; 386; 402; 421; 434; 439; 445; 480; 496].

(** The globals after [main] has set up gain control for [-g -10] at the
    default sample rate on an R820T tuner. *)
Definition agc_example : globals :=
  fst (main_gain_setup (fun _ => 0) r820t_gains (fun x => x)
         (-100) 2048000 globals_at_start).






(** Sum of the deltas [target - peak] of a sequence of peaks. *)
Definition delta_sum (target : Z) (peaks : list Z) : Z :=
  fold_right (fun p s => (target - p) + s) 0 peaks.

(** ** More of the program *)

(** [sighandler]: the exit flag is raised; cancelling the transfer acts
    outside the globals. *)
Definition sighandler (g : globals) : globals := set_do_exit 1 g.

(** The count [rtlsdr_callback] hands to [fwrite]: the length of the
    block, cut to the byte budget when the budget is smaller; nothing is
    written when the callback returns at once. *)
Definition written_len (len : Z) (ctx : bool) (g : globals) : Z :=
  if ctx then
    if do_exit g =? 0 then
      if (0 <? bytes_to_read g) && (bytes_to_read g <? len)
      then bytes_to_read g
      else len
    else 0
  else 0.

(** The bytes handed to [fwrite] over successive deliveries. *)
Fixpoint deliver_written (blocks : list (list byte * Z)) (g : globals) : Z :=
  match blocks with
  | [] => 0
  | (buf, len) :: rest =>
      written_len len true g
      + deliver_written rest (fst (rtlsdr_callback buf len true g))
  end.

(** The lengths of a sequence of blocks, added up. *)
Definition total_len (blocks : list (list byte * Z)) : Z :=
  fold_right (fun b s => snd b + s) 0 blocks.

(** The largest value the descriptor's counter takes. *)
Definition EVENT_MAX : Z := 2 ^ 64 - 2.

(** What set-up and every round of the estimator keep true of its
    globals. *)
Definition estimator_ok (g : globals) : Prop :=
  DBFS_MIN <= max_dbfs g /\
  1 <= max_samples g <= CInt.INT_MAX /\
  0 <= sample_index g <= max_samples g /\
  CInt.int_range (pid_somme g) /\
  0 <= event_count g <= EVENT_MAX.

(** [k] wakes of the actuator in a row, with the gain writes they make. *)
Fixpoint wakes (vgs : Z -> Z) (k : nat) (g : globals)
  : globals * list thread_event :=
  match k with
  | O => (g, [])
  | S k' =>
      let '(g1, e1) := actuator_wake vgs g in
      let '(g2, e2) := wakes vgs k' g1 in
      (g2, e1 ++ e2)
  end.

(** The two threads and the signal handler, interleaved at the grain of
    one callback, one round of the thread loop, one signal. *)
Inductive action : Type :=
| ActDeliver (buf : list byte) (len : Z)   (* the transfer delivers a block *)
| ActRound (sel : Z)                       (* one round of the thread loop *)
| ActSignal.                               (* a signal is caught *)

(** One action; the flag says whether the thread is still in its loop.
    The loop test follows the body of the round. *)
Definition system_step (vgs : Z -> Z) (a : action) (s : globals * bool)
  : (globals * bool) * list thread_event :=
  let '(g, looping) := s in
  match a with
  | ActDeliver buf len => ((fst (rtlsdr_callback buf len true g), looping), [])
  | ActRound sel =>
      if looping then
        let '(g1, evs) := thread_round vgs sel g in
        ((g1, do_exit g1 =? 0), evs)
      else (s, [])
  | ActSignal => ((sighandler g, looping), [])
  end.

Fixpoint system_run (vgs : Z -> Z) (acts : list action) (s : globals * bool)
  : (globals * bool) * list thread_event :=
  match acts with
  | [] => (s, [])
  | a :: rest =>
      let '(s1, e1) := system_step vgs a s in
      let '(s2, e2) := system_run vgs rest s1 in
      (s2, e1 ++ e2)
  end.

(** ** What a run shows of gain control *)








(** ** Well-formed states of the whole system *)

(** Gain control is set up on the tuner's table [tuner_gains]: the
    estimator's globals are well formed, the index is inside the part of
    the table gain control uses, and the array holds the tuner's gains. *)
Definition system_ok (tuner_gains : list Z) (g : globals) : Prop :=
  estimator_ok g /\
  gain_count g = Z.of_nat (length tuner_gains) /\
  2 <= gain_count g <= 100 /\
  index_in_table g /\
  (forall i, 0 <= i < gain_count g ->
             gain_at (gains g) i = nth (Z.to_nat i) tuner_gains 0).

(** An event of the thread is a wait of one second or the write of one
    of the tuner's gains other than the lowest. *)
Definition event_in_table (tuner_gains : list Z) (e : thread_event) : Prop :=
  match e with
  | EvSelect tv_sec tv_usec => tv_sec = 1 /\ tv_usec = 0
  | EvGainSet v =>
      exists i, 1 <= i <= Z.of_nat (length tuner_gains) - 1 /\
                v = nth (Z.to_nat i) tuner_gains 0
  end.

(** The globals of gain control: the estimator's, the accumulator, the
    event counter and the actuator's. *)
Definition same_gain_control (g g' : globals) : Prop :=
  sample_index g' = sample_index g /\ max_dbfs g' = max_dbfs g /\
  pid_somme g' = pid_somme g /\ event_count g' = event_count g /\
  gain_index g' = gain_index g /\ current_gain g' = current_gain g /\
  target_dbfs g' = target_dbfs g.

(** ** The synchronous read loop of [main] *)

(** Conversions to [uint32_t] and to [size_t]. *)
Definition to_uint32 (z : Z) : Z := z mod 2 ^ 32.
Definition to_size_t (z : Z) : Z := z mod 2 ^ 64.

(** What one round of the loop gets from outside: the status and the
    count [rtlsdr_read_sync] returns, whether a signal was caught while
    it blocked, and whether [fwrite] returns the count it was given. *)
Record sync_round : Type := mkSyncRound {
  read_status : Z;
  read_count : Z;
  signal_caught : bool;
  fwrite_full : bool
}.

(** A round in which a whole block is read and written and no signal
    is caught. *)
Definition full_round (out_block_size : Z) : sync_round :=
  mkSyncRound 0 out_block_size false true.

(** How the loop was left. *)
Inductive sync_exit : Type :=
| SyncFlag         (* the test [!do_exit] failed *)
| SyncReadFailed   (* "WARNING: sync read failed." *)
| SyncShortWrite   (* "Short write, samples lost, exiting!" *)
| SyncShortRead    (* "Short read, samples lost, exiting!" *)
| SyncRunning.     (* still looping when the rounds supplied ran out *)

(** The [while (!do_exit)] loop of the synchronous mode.  The third
    component lists the counts handed to [fwrite]. *)
Fixpoint sync_loop (out_block_size : Z) (rounds : list sync_round)
    (g : globals) : sync_exit * globals * list Z :=
  if negb (do_exit g =? 0) then (SyncFlag, g, [])
  else
    match rounds with
    | [] => (SyncRunning, g, [])
    | rd :: rest =>
        let g := if signal_caught rd then sighandler g else g in
        if read_status rd <? 0 then (SyncReadFailed, g, [])
        else
          let '(n_read, g) :=
            if (0 <? bytes_to_read g)
               && (bytes_to_read g <? to_uint32 (read_count rd))
            then (CInt.wrap (bytes_to_read g), set_do_exit 1 g)
            else (read_count rd, g) in
          if negb (fwrite_full rd)
          then (SyncShortWrite, g, [to_size_t n_read])
          else if to_uint32 n_read <? out_block_size
          then (SyncShortRead, g, [to_size_t n_read])
          else
            let g :=
              if 0 <? bytes_to_read g
              then set_bytes_to_read
                     ((bytes_to_read g - to_size_t n_read) mod 2 ^ 64) g
              else g in
            let '(ex, g', ws) := sync_loop out_block_size rest g in
            (ex, g', to_size_t n_read :: ws)
    end.

(* ================================================================== *)
(** * Lemmas and theorems *)
(* ================================================================== *)

(** ** C integers *)

Ltac int_bounds :=
  unfold CInt.int_range, CInt.INT_MIN, CInt.INT_MAX, Spec.threshold in *.

Lemma wrap_in_range (z : Z) : CInt.int_range z -> CInt.wrap z = z.
Proof.
  unfold CInt.int_range, CInt.INT_MIN, CInt.INT_MAX, CInt.wrap.
  intros H. rewrite Z.mod_small; lia.
Qed.

Lemma wrap_range (z : Z) : CInt.int_range (CInt.wrap z).
Proof.
  unfold CInt.int_range, CInt.INT_MIN, CInt.INT_MAX, CInt.wrap.
  pose proof (Z.mod_pos_bound (z + 2 ^ 31) (2 ^ 32) ltac:(lia)). lia.
Qed.

(** ** The look-up table *)

Lemma lut_store_same (t : table) (i q v : Z) : lut_store t i q v i q = v.
Proof. unfold lut_store. now rewrite !Z.eqb_refl. Qed.

Lemma lut_store_other (t : table) (i q v i' q' : Z) :
  i' <> i \/ q' <> q -> lut_store t i q v i' q' = t i' q'.
Proof.
  unfold lut_store. intros H.
  destruct (Z.eqb_spec i' i), (Z.eqb_spec q' q); simpl; try reflexivity; lia.
Qed.

Arguments lut_store : simpl never.

(** Case analysis on every integer comparison in the goal. *)
Ltac case_ltb :=
  match goal with |- context [Z.ltb ?u ?v] => destruct (Z.ltb_spec u v) end.
Ltac case_leb :=
  match goal with |- context [Z.leb ?u ?v] => destruct (Z.leb_spec u v) end.
Ltac case_eqb :=
  match goal with |- context [Z.eqb ?u ?v] => destruct (Z.eqb_spec u v) end.
Ltac compare_cases :=
  repeat first [case_leb | case_ltb | case_eqb];
  cbn [andb orb negb]; try reflexivity; try lia.

(** The inner loop writes columns [start .. start+n-1] of row [i]. *)
Lemma inner_loop_lookup (n : nat) :
  forall (start : Z) (t : table) (i c i' q' : Z),
    for_loop n start (dbfs_lut_cell i c) t i' q' =
    if (i' =? i) && (start <=? q') && (q' <? start + Z.of_nat n)
    then dbfs_value c q' else t i' q'.
Proof.
  induction n as [|n IH]; intros start t i c i' q'.
  - cbn [for_loop]. change (Z.of_nat 0) with 0. compare_cases.
  - cbn [for_loop]. rewrite IH, Nat2Z.inj_succ. unfold dbfs_lut_cell.
    destruct (Z.eq_dec i' i) as [->|Hi].
    + destruct (Z.eq_dec q' start) as [->|Hq].
      * rewrite lut_store_same. compare_cases.
      * rewrite lut_store_other by lia. compare_cases.
    + rewrite lut_store_other by lia. compare_cases.
Qed.

(** The outer loop writes rows [start .. start+n-1], columns 0..255. *)
Lemma outer_loop_lookup (n : nat) :
  forall (start : Z) (t : table) (i' q' : Z),
    for_loop n start dbfs_lut_row t i' q' =
    if (start <=? i') && (i' <? start + Z.of_nat n) && (0 <=? q') && (q' <? 256)
    then dbfs_value ((i' - 158) * (i' - 158)) q' else t i' q'.
Proof.
  induction n as [|n IH]; intros start t i' q'.
  - cbn [for_loop]. change (Z.of_nat 0) with 0. compare_cases.
  - cbn [for_loop]. rewrite IH, Nat2Z.inj_succ. unfold dbfs_lut_row.
    rewrite inner_loop_lookup. change (Z.of_nat 256) with 256.
    destruct (Z.eq_dec i' start) as [->|Hi]; compare_cases.
Qed.

(** Every cell of the 256x256 array is written, with a value that depends
    on its indices alone. *)
Lemma dbfs_lut_init_lookup (t : table) (i q : Z) :
  0 <= i < 256 -> 0 <= q < 256 ->
  dbfs_lut_init t i q = dbfs_value ((i - 158) * (i - 158)) q.
Proof.
  intros Hi Hq. unfold dbfs_lut_init. rewrite outer_loop_lookup.
  change (Z.of_nat 256) with 256. compare_cases.
Qed.

Lemma dbfs_value_pos (c q : Z) :
  0 < c + (q - 128) * (q - 128) ->
  dbfs_value c q = float_to_int (scaled_log (c + (q - 128) * (q - 128))).
Proof.
  intros H. unfold dbfs_value. cbv zeta.
  destruct (Z.ltb_spec 0 (c + (q - 128) * (q - 128))); [reflexivity | lia].
Qed.

Lemma dbfs_value_zero (c q : Z) :
  c + (q - 128) * (q - 128) <= 0 -> dbfs_value c q = DBFS_MIN.
Proof.
  intros H. unfold dbfs_value. cbv zeta.
  destruct (Z.ltb_spec 0 (c + (q - 128) * (q - 128))); [lia | reflexivity].
Qed.

(** The centered magnitude vanishes at the pair (158, 128) only. *)
Lemma magnitude_zero_iff (i q : Z) :
  Spec.magnitude i q = 0 <-> i = 158 /\ q = 128.
Proof.
  unfold Spec.magnitude. rewrite !Z.pow_2_r. split.
  - intros H.
    pose proof (Z.square_nonneg (i - 158)) as Hi.
    pose proof (Z.square_nonneg (q - 128)) as Hq.
    assert (A : (i - 158) * (i - 158) = 0) by lia.
    assert (B : (q - 128) * (q - 128) = 0) by lia.
    apply Z.mul_eq_0 in A. apply Z.mul_eq_0 in B. lia.
  - intros [-> ->]. reflexivity.
Qed.

(** ** Conversion of real values to integers *)

(** Truncation toward zero: the floor of a non-negative value, the
    ceiling of a negative one. *)
Lemma float_to_int_spec (r : R) :
  (0 <= r -> IZR (float_to_int r) <= r < IZR (float_to_int r) + 1)%R /\
  (r < 0 -> IZR (float_to_int r) - 1 < r <= IZR (float_to_int r))%R.
Proof.
  unfold float_to_int. destruct (Rle_dec 0 r) as [Hr|Hr]; split; intros H.
  - destruct (base_Int_part r). lra.
  - lra.
  - lra.
  - rewrite opp_IZR. destruct (base_Int_part (- r)). lra.
Qed.

Lemma float_to_int_nonneg (r : R) (z : Z) :
  (0 <= r)%R -> (IZR z <= r < IZR z + 1)%R -> float_to_int r = z.
Proof.
  intros H0 Hz. unfold float_to_int. destruct (Rle_dec 0 r); [|lra].
  symmetry. apply Int_part_spec. lra.
Qed.

Lemma float_to_int_neg (r : R) (z : Z) :
  (r < 0)%R -> (IZR z - 1 < r <= IZR z)%R -> float_to_int r = z.
Proof.
  intros H0 Hz. unfold float_to_int. destruct (Rle_dec 0 r); [lra|].
  assert (E : (- z)%Z = Int_part (- r)).
  { apply Int_part_spec. rewrite opp_IZR. lra. }
  rewrite <- E. lia.
Qed.

Lemma round_nonneg (r : R) (z : Z) :
  (0 <= r)%R -> (IZR z - / 2 <= r < IZR z + / 2)%R -> Spec.round r = z.
Proof.
  intros H0 Hz. unfold Spec.round. destruct (Rle_dec 0 r); [|lra].
  symmetry. apply Int_part_spec. lra.
Qed.

(** ** Bounds on the logarithm *)

Lemma ln_lower (a x : R) : (exp a < x)%R -> (a < ln x)%R.
Proof.
  intros H. rewrite <- (ln_exp a). apply ln_increasing; [apply exp_pos | exact H].
Qed.

Lemma ln_upper (a x : R) : (0 < x)%R -> (x < exp a)%R -> (ln x < a)%R.
Proof.
  intros Hx H. rewrite <- (ln_exp a). apply ln_increasing; assumption.
Qed.

(** [exp a <= 1 / (1 - a)] below 1, from [1 - a <= exp (- a)]. *)
Lemma exp_upper (a : R) : (a < 1)%R -> (exp a <= / (1 - a))%R.
Proof.
  intros Ha.
  pose proof (exp_ineq1_le (- a)) as H1.
  pose proof (exp_pos a) as Hp.
  assert (E : (exp a * exp (- a) = 1)%R).
  { rewrite <- exp_plus. replace (a + - a)%R with 0%R by ring. apply exp_0. }
  assert (H2 : (exp a * (1 - a) <= 1)%R).
  { rewrite <- E. apply Rmult_le_compat_l; lra. }
  apply (Rmult_le_reg_r (1 - a)); [lra|].
  rewrite Rinv_l by lra. exact H2.
Qed.

(** The pair (30, 138) has magnitude 16484, a little above full scale:
    its scaled logarithm lies strictly between one half and one. *)
Lemma scaled_log_16484 : (/ 2 < scaled_log 16484 < 1)%R.
Proof.
  unfold scaled_log. split.
  - assert (H : (/ 200 < ln (16484 / 16384))%R).
    { apply ln_lower. pose proof (exp_upper (/ 200) ltac:(lra)). lra. }
    lra.
  - assert (H : (ln (16484 / 16384) < / 100)%R).
    { apply ln_upper; [lra|]. pose proof (exp_ineq1_le (/ 100)). lra. }
    lra.
Qed.

Lemma exp_5_le : (exp 5 <= 243)%R.
Proof.
  replace 5%R with (1 + 1 + 1 + 1 + 1)%R by ring.
  rewrite !exp_plus.
  pose proof exp_le_3 as H3. pose proof (exp_pos 1) as Hp.
  assert (H2 : (exp 1 * exp 1 <= 9)%R) by nra.
  assert (H4 : (exp 1 * exp 1 * exp 1 <= 27)%R) by nra.
  assert (H5 : (exp 1 * exp 1 * exp 1 * exp 1 <= 81)%R) by nra.
  nra.
Qed.

(** The pair (159, 128) has magnitude 1, whose scaled logarithm is far
    below [DBFS_MIN]. *)
Lemma scaled_log_1 : (scaled_log 1 < -500)%R.
Proof.
  unfold scaled_log.
  assert (H : (ln (1 / 16384) < -5)%R).
  { apply ln_upper; [lra|].
    pose proof exp_5_le as H5. pose proof (exp_pos (-5)) as Hp.
    assert (E : (exp 5 * exp (-5) = 1)%R).
    { rewrite <- exp_plus. replace (5 + -5)%R with 0%R by ring. apply exp_0. }
    nra. }
  lra.
Qed.

(** ** The table: the claims *)

Lemma lut_30_138 (t : table) : dbfs_lut_init t 30 138 = 0.
Proof.
  rewrite dbfs_lut_init_lookup by lia.
  rewrite dbfs_value_pos by lia.
  change ((30 - 158) * (30 - 158) + (138 - 128) * (138 - 128)) with 16484.
  pose proof scaled_log_16484.
  apply float_to_int_nonneg; lra.
Qed.

Lemma lut_158_128 (t : table) : dbfs_lut_init t 158 128 = DBFS_MIN.
Proof.
  rewrite dbfs_lut_init_lookup by lia. apply dbfs_value_zero. lia.
Qed.

(** Some scores lie below [DBFS_MIN]: the pair next to the centre. *)
Lemma lut_159_128 (t : table) : dbfs_lut_init t 159 128 < DBFS_MIN.
Proof.
  rewrite dbfs_lut_init_lookup by lia.
  rewrite dbfs_value_pos by lia.
  change ((159 - 158) * (159 - 158) + (128 - 128) * (128 - 128)) with 1.
  pose proof scaled_log_1 as H.
  destruct (float_to_int_spec (scaled_log 1)) as [_ Hn].
  specialize (Hn ltac:(lra)).
  apply lt_IZR. unfold DBFS_MIN. lra.
Qed.

Lemma spec_entry_30_138 : Spec.table_entry 30 138 = 1.
Proof.
  unfold Spec.table_entry. change (Spec.magnitude 30 138) with 16484.
  change (16484 =? 0) with false. cbv iota.
  pose proof scaled_log_16484 as H. unfold scaled_log in H.
  apply round_nonneg; lra.
Qed.

(** C3, as stated, fails: at the pair (30, 138) the code stores 0, the
    fraction of 0.6085 being discarded by the conversion to [int], where
    rounding to the nearest integer gives 1. *)
Lemma C3_entry_is_not_rounded :
  dbfs_lut_init lut_zero 30 138 <> Spec.table_entry 30 138.
Proof.
  rewrite lut_30_138, spec_entry_30_138. discriminate.
Qed.

(** C3, amended: the build leaves the same 256x256 table whatever the
    array held before; the entry of a pair is the sentinel [DBFS_MIN] when
    its centered magnitude is zero, which happens at (158, 128) only, and
    otherwise it is [100 * ln (m / 16384)] truncated toward zero: the
    largest integer not above a non-negative value, the smallest integer
    not below a negative one. *)
Theorem C3_table_entries (t t' : table) (i q : Z) :
  0 <= i < 256 -> 0 <= q < 256 ->
  let m := Spec.magnitude i q in
  let v := (100 * ln (IZR m / 16384))%R in
  let e := dbfs_lut_init t i q in
  dbfs_lut_init t' i q = e /\
  (m = 0 <-> i = 158 /\ q = 128) /\
  (m = 0 -> e = DBFS_MIN) /\
  (m <> 0 ->
     e = float_to_int v /\
     (0 <= v -> IZR e <= v < IZR e + 1)%R /\
     (v < 0 -> IZR e - 1 < v <= IZR e)%R).
Proof.
  intros Hi Hq m v e. subst e.
  rewrite !dbfs_lut_init_lookup by assumption.
  assert (Em : m = (i - 158) * (i - 158) + (q - 128) * (q - 128)).
  { subst m. unfold Spec.magnitude. now rewrite !Z.pow_2_r. }
  split; [reflexivity|]. split; [apply magnitude_zero_iff|]. split.
  - intros H0. apply dbfs_value_zero. lia.
  - intros Hm.
    assert (0 < m).
    { pose proof (Z.square_nonneg (i - 158)). pose proof (Z.square_nonneg (q - 128)).
      lia. }
    rewrite dbfs_value_pos by lia. rewrite <- Em.
    change (scaled_log m) with v.
    split; [reflexivity | apply float_to_int_spec].
Qed.

Lemma C3_table_entries_witness :
  dbfs_lut_init (fun _ _ => 7) 30 138 = dbfs_lut_init lut_zero 30 138 /\
  dbfs_lut_init lut_zero 30 138 =
  float_to_int (100 * ln (IZR (Spec.magnitude 30 138) / 16384)).
Proof.
  pose proof (C3_table_entries lut_zero (fun _ _ => 7) 30 138
                ltac:(lia) ltac:(lia)) as H.
  cbv zeta in H. destruct H as (H1 & _ & _ & H4).
  split; [exact H1 | apply H4; discriminate].
Defined.

(** ** The window peak estimator *)

(** A round with the window open: the counter drops by one, the first
    pair of the block is folded into the running maximum, nothing is
    handed over. *)
Lemma round_open (buf : list byte) (g : globals) :
  0 < sample_index g -> CInt.int_range (sample_index g) ->
  callback_round buf g =
  (set_max_dbfs (Z.max (max_dbfs g) (first_level buf g))
     (set_sample_index (sample_index g - 1) g), []).
Proof.
  intros Hpos Hr. unfold callback_round.
  destruct (Z.ltb_spec 0 (sample_index g)); [|lia].
  unfold CInt.sub. rewrite wrap_in_range
    by (unfold CInt.int_range, CInt.INT_MIN, CInt.INT_MAX in *; lia).
  cbn [max_dbfs set_sample_index dbfs_lut].
  fold (first_level buf g).
  destruct (Z.ltb_spec (max_dbfs g) (first_level buf g)).
  - rewrite Z.max_r by lia. reflexivity.
  - rewrite Z.max_l by lia. reflexivity.
Qed.

(** A round with the counter exhausted: the running maximum is handed
    over, the window restarts, and the first pair of the block opens it. *)
Lemma round_close (buf : list byte) (g : globals) :
  sample_index g <= 0 ->
  callback_round buf g =
  (set_max_dbfs (Z.max DBFS_MIN (first_level buf g)) (close_window g),
   [max_dbfs g]).
Proof.
  intros Hz. unfold callback_round.
  destruct (Z.ltb_spec 0 (sample_index g)); [lia|].
  assert (Em : max_dbfs (close_window g) = DBFS_MIN) by reflexivity.
  assert (El : dbfs_lut (close_window g) = dbfs_lut g).
  { unfold close_window, signal_event. cbn.
    destruct (_ <=? _); reflexivity. }
  rewrite Em, El. fold (first_level buf g).
  destruct (Z.ltb_spec DBFS_MIN (first_level buf g)).
  - rewrite Z.max_r by lia. reflexivity.
  - rewrite Z.max_l by lia. reflexivity.
Qed.


(** Any number of rounds that fits in the open window: nothing is handed
    over, the counter drops by that number, and the running maximum is
    raised to the score of the first pair of the block. *)
Lemma loop_open (n : nat) (buf : list byte) :
  forall g,
    Z.of_nat (S n) <= sample_index g -> CInt.int_range (sample_index g) ->
    callback_loop (S n) buf g =
    (set_max_dbfs (Z.max (max_dbfs g) (first_level buf g))
       (set_sample_index (sample_index g - Z.of_nat (S n)) g), []).
Proof.
  induction n as [|n IH]; intros g Hn Hr.
  - cbn [callback_loop]. rewrite round_open by (try assumption; lia). reflexivity.
  - change (callback_loop (S (S n)) buf g) with
      (let '(g1, o1) := callback_round buf g in
       let '(g2, o2) := callback_loop (S n) buf g1 in (g2, o1 ++ o2)).
    rewrite round_open by (try assumption; lia).
    rewrite IH.
    + cbn [max_dbfs sample_index set_max_dbfs set_sample_index app].
      unfold first_level. cbn [dbfs_lut].
      fold (first_level buf g).
      rewrite <- Z.max_assoc, Z.max_id.
      unfold set_max_dbfs, set_sample_index. cbn.
      do 2 f_equal. lia.
    + cbn. lia.
    + cbn. unfold CInt.int_range, CInt.INT_MIN, CInt.INT_MAX in *. lia.
Qed.

Lemma estimator_frame_refl (g : globals) : estimator_frame g g.
Proof. repeat split. Qed.

Lemma estimator_frame_trans (g1 g2 g3 : globals) :
  estimator_frame g1 g2 -> estimator_frame g2 g3 -> estimator_frame g1 g3.
Proof.
  unfold estimator_frame. intuition congruence.
Qed.

Lemma callback_round_frame (buf : list byte) (g : globals) :
  estimator_frame g (fst (callback_round buf g)).
Proof.
  unfold callback_round.
  destruct (0 <? sample_index g).
  - cbn. destruct (_ <? _); repeat split.
  - unfold close_window, signal_event. cbn.
    destruct (_ <=? _); cbn; destruct (_ <? _); repeat split.
Qed.

Lemma callback_loop_frame (n : nat) (buf : list byte) :
  forall g, estimator_frame g (fst (callback_loop n buf g)).
Proof.
  induction n as [|n IH]; intros g.
  - apply estimator_frame_refl.
  - cbn [callback_loop].
    pose proof (callback_round_frame buf g) as H1.
    destruct (callback_round buf g) as [g1 o1].
    pose proof (IH g1) as H2.
    destruct (callback_loop n buf g1) as [g2 o2].
    exact (estimator_frame_trans _ _ _ H1 H2).
Qed.

(** With gain control on, the transfer running and no byte budget, the
    callback is the loop over the pairs of the block. *)
Lemma rtlsdr_callback_agc (buf : list byte) (len : Z) (g : globals) :
  do_exit g = 0 -> bytes_to_read g = 0 -> target_dbfs g < 0 ->
  rtlsdr_callback buf len true g = callback_loop (Z.to_nat (len / 2)) buf g.
Proof.
  intros He Hb Ht. unfold rtlsdr_callback.
  rewrite He, Hb. cbn [Z.eqb Z.ltb Z.compare andb].
  destruct (Z.ltb_spec (target_dbfs g) 0); [|lia].
  pose proof (callback_loop_frame (Z.to_nat (len / 2)) buf g) as Hf.
  destruct (callback_loop (Z.to_nat (len / 2)) buf g) as [g1 o1].
  destruct Hf as (_ & _ & Hb1 & _). cbn [fst] in Hb1.
  rewrite Hb1, Hb. reflexivity.
Qed.

Lemma agc_example_fields :
  dbfs_lut agc_example = dbfs_lut_init lut_zero /\
  do_exit agc_example = 0 /\ bytes_to_read agc_example = 0 /\
  target_dbfs agc_example = -100 /\ max_samples agc_example = 409600 /\
  sample_index agc_example = 409600 /\ max_dbfs agc_example = DBFS_MIN /\
  pid_somme agc_example = 0 /\ gain_count agc_example = 29 /\
  gain_index agc_example = 14 /\ current_gain agc_example = 254.
Proof. repeat split. Qed.

Lemma int_range_409600 : CInt.int_range 409600.
Proof. unfold CInt.int_range, CInt.INT_MIN, CInt.INT_MAX. lia. Qed.

(** C1: the code at a block of two pairs, (158, 128) then (30, 138),
    delivered inside an open window whose running peak is [DBFS_MIN].
    The scores are -480 and 0, so the peak of the claim is 0; the loop
    reads the first pair twice and leaves the running peak at -480. *)
Theorem C1_second_pair_is_not_read :
  let buf := [x9e; x80; x1e; x8a] in
  let g' := fst (rtlsdr_callback buf 4 true agc_example) in
  first_level buf agc_example = -480 /\
  Spec.block_peak (dbfs_lut agc_example) (max_dbfs agc_example) buf = 0 /\
  max_dbfs g' = -480 /\
  max_dbfs g' <> Spec.block_peak (dbfs_lut agc_example) (max_dbfs agc_example) buf.
Proof.
  cbv zeta.
  destruct agc_example_fields as (El & Hx & Hb & Ht & Hm & Hs & Hd & _).
  assert (F : first_level [x9e; x80; x1e; x8a] agc_example = -480).
  { unfold first_level. rewrite El. cbn [nth].
    change (byte_val x9e) with 158. change (byte_val x80) with 128.
    apply lut_158_128. }
  assert (P : Spec.block_peak (dbfs_lut agc_example) (max_dbfs agc_example)
                [x9e; x80; x1e; x8a] = 0).
  { unfold Spec.block_peak. cbn [Spec.pairs fold_left fst snd].
    change (byte_val x9e) with 158. change (byte_val x80) with 128.
    change (byte_val x1e) with 30. change (byte_val x8a) with 138.
    rewrite El, Hd, lut_158_128, lut_30_138. reflexivity. }
  assert (M : max_dbfs (fst (rtlsdr_callback [x9e; x80; x1e; x8a] 4 true
                               agc_example)) = -480).
  { rewrite rtlsdr_callback_agc by (rewrite ?Hx, ?Hb, ?Ht; lia).
    change (Z.to_nat (4 / 2)) with 2%nat.
    rewrite loop_open by (rewrite Hs; first [apply int_range_409600 | cbn; lia]).
    cbn [fst max_dbfs set_max_dbfs]. rewrite F, Hd. reflexivity. }
  repeat split; try assumption.
  rewrite M, P. discriminate.
Qed.


(** What closing the window does to the fields. *)
Lemma close_window_fields (g : globals) :
  sample_index (close_window g) = CInt.sub (max_samples g) 1 /\
  max_dbfs (close_window g) = DBFS_MIN /\
  delta_gain (close_window g) = CInt.sub (target_dbfs g) (max_dbfs g) /\
  pid_somme (close_window g) =
    CInt.add (pid_somme g) (CInt.sub (target_dbfs g) (max_dbfs g)) /\
  estimator_frame g (close_window g).
Proof.
  unfold close_window, signal_event. cbn.
  destruct (_ <=? _); repeat split.
Qed.


Lemma iq_block_first (i q : byte) (n : nat) :
  n <> 0%nat ->
  nth 0 (iq_block i q n) x00 = i /\ nth 1 (iq_block i q n) x00 = q.
Proof. destruct n; [congruence | intros _; split; reflexivity]. Qed.

Lemma iq_block_length (i q : byte) (n : nat) :
  length (iq_block i q n) = (2 * n)%nat.
Proof. induction n; cbn [iq_block length]; lia. Qed.





(** The running maximum after one round, whatever the counter holds. *)
Lemma round_max_dbfs (buf : list byte) (g : globals) :
  max_dbfs (fst (callback_round buf g)) =
  Z.max (if 0 <? sample_index g then max_dbfs g else DBFS_MIN)
        (first_level buf g).
Proof.
  unfold callback_round.
  destruct (0 <? sample_index g).
  - cbn [max_dbfs set_sample_index dbfs_lut]. fold (first_level buf g).
    destruct (Z.ltb_spec (max_dbfs g) (first_level buf g)); cbn; lia.
  - destruct (close_window_fields g) as (_ & Hm & _ & _ & (El & _)).
    rewrite Hm, El. fold (first_level buf g).
    destruct (Z.ltb_spec DBFS_MIN (first_level buf g)); cbn [fst].
    + cbn. lia.
    + rewrite Hm. lia.
Qed.

(** The running maximum never falls below the sentinel. *)
Lemma max_dbfs_floor (n : nat) (buf : list byte) :
  forall g, DBFS_MIN <= max_dbfs g ->
            DBFS_MIN <= max_dbfs (fst (callback_loop n buf g)).
Proof.
  induction n as [|n IH]; intros g Hg; [exact Hg|].
  cbn [callback_loop].
  pose proof (round_max_dbfs buf g) as Hr.
  destruct (callback_round buf g) as [g1 o1]. cbn [fst] in Hr.
  specialize (IH g1).
  destruct (callback_loop n buf g1) as [g2 o2]. cbn [fst] in *.
  apply IH. rewrite Hr. destruct (0 <? sample_index g); lia.
Qed.

(** ** The accumulator and the two tests of the actuator *)

(** With the accumulator inside the range of [int], the two tests act as
    one three-way choice: at most one of them succeeds. *)
Lemma check_pid_in_range (g : globals) (n : Z) :
  CInt.int_range (pid_somme g) ->
  check_pid g n =
  match Spec.pending_step (pid_somme g) with
  | Some Spec.Increase =>
      (set_pid_somme (pid_somme g - 300) g, CInt.add n 1)
  | Some Spec.Decrease =>
      (set_pid_somme (pid_somme g + 300) g, CInt.sub n 1)
  | None => (g, n)
  end.
Proof.
  intros Hr. unfold check_pid, check_increase, check_decrease,
    Spec.pending_step, Spec.threshold, CInt.sub, CInt.add.
  change (- (300)) with (-300).
  destruct (Z.ltb_spec 300 (pid_somme g)).
  - rewrite wrap_in_range by (int_bounds; lia).
    cbn [pid_somme set_pid_somme].
    destruct (Z.ltb_spec (pid_somme g - 300) (-300)); [lia | reflexivity].
  - destruct (Z.ltb_spec (pid_somme g) (-300)).
    + rewrite wrap_in_range by (int_bounds; lia). reflexivity.
    + reflexivity.
Qed.

Lemma delta_sum_app (target : Z) (l1 l2 : list Z) :
  delta_sum target (l1 ++ l2) = delta_sum target l1 + delta_sum target l2.
Proof.
  unfold delta_sum.
  induction l1 as [|p l1 IH]; cbn [app fold_right]; [lia | rewrite IH; lia].
Qed.

(** ** The actuator *)

Lemma check_pid_frame (g : globals) (n : Z) :
  let g' := fst (check_pid g n) in
  gain_count g' = gain_count g /\ gains g' = gains g /\
  gain_index g' = gain_index g /\ current_gain g' = current_gain g /\
  do_exit g' = do_exit g /\ event_count g' = event_count g.
Proof.
  cbv zeta. unfold check_pid, check_increase, check_decrease.
  destruct (300 <? pid_somme g); cbn [pid_somme set_pid_somme];
    destruct (_ <? -300); cbn; repeat split.
Qed.

Lemma check_pid_keeps_range (g : globals) (n : Z) :
  CInt.int_range (pid_somme g) ->
  CInt.int_range (pid_somme (fst (check_pid g n))).
Proof.
  intros Hr. unfold check_pid, check_increase, check_decrease.
  destruct (300 <? pid_somme g); cbn [pid_somme set_pid_somme];
    destruct (_ <? -300); cbn; auto;
    unfold CInt.add, CInt.sub; apply wrap_range.
Qed.

(** The wake, field by field, for any accumulator and any tuner. *)
Lemma actuator_wake_fields (vgs : Z -> Z) (g : globals) :
  let n := new_index g in
  let r := actuator_wake vgs g in
  gain_index (fst r) = n /\
  snd r = (if n =? gain_index g then []
           else [EvGainSet (gain_at (gains g) n)]) /\
  current_gain (fst r) = (if n =? gain_index g then current_gain g
                          else gain_at (gains g) n) /\
  gain_count (fst r) = gain_count g /\ gains (fst r) = gains g /\
  do_exit (fst r) = do_exit g /\ event_count (fst r) = 0 /\
  pid_somme (fst r) =
    pid_somme (fst (check_pid (clear_event g) (gain_index g))).
Proof.
  cbv zeta. unfold actuator_wake, new_index.
  pose proof (check_pid_frame (clear_event g) (gain_index g)) as Hf.
  cbv zeta in Hf.
  destruct (check_pid (clear_event g) (gain_index g)) as [g1 n1].
  cbn [fst snd] in *.
  destruct Hf as (Hc & Hgs & Hgi & Hcg & He & Hev).
  cbn [gain_count gains gain_index current_gain do_exit event_count
       clear_event set_event_count] in Hc, Hgs, Hgi, Hcg, He, Hev.
  unfold apply_index. rewrite Hgi.
  destruct (Z.eqb_spec (usable_index g1 n1) (gain_index g)) as [E|E];
    cbn [negb fst snd].
  - repeat split; congruence.
  - cbn. rewrite Hgs. repeat split; congruence.
Qed.

(** With the accumulator in range, the index the wake settles on. *)
Lemma new_index_in_range (g : globals) :
  CInt.int_range (pid_somme g) ->
  new_index g =
  usable_index g
    match Spec.pending_step (pid_somme g) with
    | Some Spec.Increase => CInt.add (gain_index g) 1
    | Some Spec.Decrease => CInt.sub (gain_index g) 1
    | None => gain_index g
    end.
Proof.
  intros Hr. unfold new_index.
  rewrite check_pid_in_range by exact Hr.
  cbn [pid_somme clear_event set_event_count gain_index].
  destruct (Spec.pending_step (pid_somme g)) as [[|]|]; reflexivity.
Qed.




(** C6: on a wake the gain-set call is issued exactly when the new index
    differs from the current one, once, with the table's gain at the new
    index; the index is then the new index whatever status the call
    returns, the status being dropped.  A round whose [select] reports
    nothing readable issues no call and changes nothing. *)
Theorem C6_gain_set_iff_index_changes (vgs vgs' : Z -> Z) (sel : Z)
    (g : globals) :
  let n := new_index g in
  let r := actuator_wake vgs g in
  snd r = (if n =? gain_index g then []
           else [EvGainSet (gain_at (gains g) n)]) /\
  ((exists v, In (EvGainSet v) (snd r)) <-> n <> gain_index g) /\
  length (filter is_gain_set (snd r)) = (if n =? gain_index g then 0%nat else 1%nat) /\
  gain_index (fst r) = n /\
  actuator_wake vgs' g = r /\
  thread_round vgs sel g =
    (if 0 <? sel then (fst r, EvSelect 1 0 :: snd r) else (g, [EvSelect 1 0])).
Proof.
  cbv zeta.
  destruct (actuator_wake_fields vgs g) as (Hn & Hev & _).
  split; [exact Hev|]. split; [|split; [|split; [exact Hn|split]]].
  - rewrite Hev. destruct (Z.eqb_spec (new_index g) (gain_index g)) as [E|E].
    + split; [intros [v []] | intros H; now elim H].
    + split; [intros _; exact E | intros _; eexists; left; reflexivity].
  - rewrite Hev. destruct (new_index g =? gain_index g); reflexivity.
  - reflexivity.
  - unfold thread_round. destruct (0 <? sel); [|reflexivity].
    destruct (actuator_wake vgs g); reflexivity.
Qed.

(** The index a wake settles on is one step from the current one and
    stays in the table, when it starts there. *)
Lemma new_index_stays_in_table (g : globals) :
  CInt.int_range (pid_somme g) ->
  2 <= gain_count g <= CInt.INT_MAX ->
  index_in_table g ->
  1 <= new_index g <= gain_count g - 1 /\
  Z.abs (new_index g - gain_index g) <= 1.
Proof.
  intros Hr Hc Hi. unfold index_in_table in Hi.
  rewrite new_index_in_range by exact Hr.
  unfold usable_index, CInt.add, CInt.sub.
  rewrite (wrap_in_range (gain_count g - 1)) by (int_bounds; lia).
  destruct (Spec.pending_step (pid_somme g)) as [[|]|];
    rewrite ?wrap_in_range by (int_bounds; lia);
    compare_cases.
Qed.

Lemma thread_round_invariant (vgs : Z -> Z) (sel : Z) (g : globals) :
  CInt.int_range (pid_somme g) ->
  2 <= gain_count g <= CInt.INT_MAX ->
  index_in_table g ->
  let g' := fst (thread_round vgs sel g) in
  index_in_table g' /\ gain_count g' = gain_count g /\
  Z.abs (gain_index g' - gain_index g) <= 1 /\
  CInt.int_range (pid_somme g') /\ do_exit g' = do_exit g.
Proof.
  intros Hr Hc Hi. cbv zeta. unfold thread_round.
  destruct (0 <? sel).
  - destruct (actuator_wake_fields vgs g)
      as (Hn & _ & _ & Hgc & _ & Hde & _ & Hp).
    destruct (new_index_stays_in_table g Hr Hc Hi) as (Hin & Habs).
    destruct (actuator_wake vgs g) as [g1 evs]. cbn [fst snd] in *.
    unfold index_in_table. rewrite Hn, Hgc, Hp.
    repeat split; try lia; try assumption.
    + apply (proj1 (check_pid_keeps_range (clear_event g) (gain_index g) Hr)).
    + apply (proj2 (check_pid_keeps_range (clear_event g) (gain_index g) Hr)).
  - cbn [fst]. unfold index_in_table in *. repeat split; try lia.
    + apply Hr.
    + apply Hr.
Qed.

(** The invariant holds along any run of the thread. *)
Lemma thread_run_invariant (vgs : Z -> Z) (env : list round_env) :
  forall g,
    CInt.int_range (pid_somme g) ->
    2 <= gain_count g <= CInt.INT_MAX ->
    index_in_table g ->
    let g' := snd (fst (set_new_gain_thread vgs env g)) in
    index_in_table g' /\ gain_count g' = gain_count g.
Proof.
  induction env as [|e env IH]; intros g Hr Hc Hi.
  - cbn. split; [exact Hi | reflexivity].
  - cbv zeta. cbn [set_new_gain_thread].
    pose proof (thread_round_invariant vgs (selected e) g Hr Hc Hi) as H.
    cbv zeta in H.
    destruct (thread_round vgs (selected e) g) as [g1 evs]. cbn [fst] in H.
    destruct H as (Hi1 & Hc1 & _ & Hr1 & _).
    set (g2 := if exit_requested e then set_do_exit 1 g1 else g1).
    assert (Hi2 : index_in_table g2 /\ gain_count g2 = gain_count g /\
                  CInt.int_range (pid_somme g2)).
    { subst g2. destruct (exit_requested e); cbn; auto. }
    destruct Hi2 as (Hi2 & Hc2 & Hr2).
    destruct (do_exit g2 =? 0).
    + specialize (IH g2 Hr2 ltac:(rewrite Hc2; exact Hc) Hi2).
      cbv zeta in IH.
      destruct (set_new_gain_thread vgs env g2) as [[st g3] evs'].
      cbn [fst snd] in *. destruct IH as (H3 & H4).
      split; [exact H3 | congruence].
    + cbn [fst snd]. split; assumption.
Qed.

(** With a single gain in the table the index alternates between 0 and
    1, still one step at a time. *)
Lemma single_gain_round (vgs : Z -> Z) (sel : Z) (g : globals) :
  CInt.int_range (pid_somme g) ->
  gain_count g = 1 -> 0 <= gain_index g <= 1 ->
  let g' := fst (thread_round vgs sel g) in
  0 <= gain_index g' <= 1 /\ Z.abs (gain_index g' - gain_index g) <= 1.
Proof.
  intros Hr Hc Hi. cbv zeta. unfold thread_round.
  destruct (0 <? sel); [|cbn [fst]; lia].
  destruct (actuator_wake_fields vgs g) as (Hn & _).
  destruct (actuator_wake vgs g) as [g1 evs]. cbn [fst snd] in *.
  rewrite Hn, new_index_in_range by exact Hr.
  unfold usable_index, CInt.add, CInt.sub. rewrite Hc.
  change (CInt.wrap (1 - 1)) with 0.
  destruct (Spec.pending_step (pid_somme g)) as [[|]|];
    rewrite ?wrap_in_range by (int_bounds; lia);
    compare_cases.
Qed.

(** With a single gain and nothing pending, a wake at index 1 takes the
    index to 0. *)
Lemma single_gain_index_returns_to_zero (vgs : Z -> Z) :
  gain_index
    (fst (actuator_wake vgs
            (set_gain_index 1 (set_gain_count 1 globals_at_start)))) = 0.
Proof. reflexivity. Qed.

(** C7: in one round of the thread the two tests on the accumulator never
    both succeed, so at most one step is taken and the index moves by at
    most one; with at least two gains in the table, an index inside
    [1, count - 1] stays there through every round, hence through any run
    of the thread.  With a single gain the index still moves by at most
    one.  The accumulator is taken inside the range of [int]. *)
Theorem C7_one_step_per_wake (vgs : Z -> Z) (sel : Z) (env : list round_env)
    (g : globals) :
  CInt.int_range (pid_somme g) ->
  let g' := fst (thread_round vgs sel g) in
  increase_fires g && decrease_fires g = false /\
  (2 <= gain_count g <= CInt.INT_MAX -> index_in_table g ->
   1 <= gain_index g' <= gain_count g' - 1 /\
   gain_count g' = gain_count g /\
   Z.abs (gain_index g' - gain_index g) <= 1 /\
   index_in_table (snd (fst (set_new_gain_thread vgs env g)))) /\
  (gain_count g = 1 -> 0 <= gain_index g <= 1 ->
   Z.abs (gain_index g' - gain_index g) <= 1).
Proof.
  intros Hr g'. split; [|split].
  - unfold increase_fires, decrease_fires, check_increase.
    destruct (Z.ltb_spec 300 (pid_somme g)); [|reflexivity].
    cbn [fst pid_somme set_pid_somme andb]. unfold CInt.sub.
    rewrite wrap_in_range by (int_bounds; lia).
    apply Z.ltb_ge. lia.
  - intros Hc Hi. subst g'.
    destruct (thread_round_invariant vgs sel g Hr Hc Hi) as (H1 & H2 & H3 & _).
    destruct (thread_run_invariant vgs env g Hr Hc Hi) as (H4 & _).
    unfold index_in_table in H1.
    split; [exact H1|]. split; [exact H2|]. split; [exact H3 | exact H4].
  - intros Hc Hi. apply (single_gain_round vgs sel g Hr Hc Hi).
Qed.

Lemma C7_one_step_per_wake_witness :
  increase_fires (set_pid_somme 700 agc_example)
  && decrease_fires (set_pid_somme 700 agc_example) = false /\
  Z.abs (gain_index (fst (thread_round (fun _ => 0) 1
                            (set_pid_somme 700 agc_example)))
         - gain_index (set_pid_somme 700 agc_example)) <= 1.
Proof.
  assert (Hr : CInt.int_range (pid_somme (set_pid_somme 700 agc_example))).
  { change (CInt.int_range 700). int_bounds. lia. }
  assert (Hc : 2 <= gain_count (set_pid_somme 700 agc_example) <= CInt.INT_MAX).
  { change (2 <= 29 <= CInt.INT_MAX). int_bounds. lia. }
  assert (Hi : index_in_table (set_pid_somme 700 agc_example)).
  { change (1 <= 14 <= 29 - 1). lia. }
  pose proof (C7_one_step_per_wake (fun _ => 0) 1 [] _ Hr) as H.
  cbv zeta in H. destruct H as (H1 & H2 & _). specialize (H2 Hc Hi).
  split; [exact H1 | exact (proj1 (proj2 (proj2 H2)))].
Defined.

(** ** The thread loop *)

(** Every round waits once, with the one-second timeout, and leaves the
    exit flag alone. *)
Lemma thread_round_select (vgs : Z -> Z) (sel : Z) (g : globals) :
  filter is_select (snd (thread_round vgs sel g)) = [EvSelect 1 0] /\
  do_exit (fst (thread_round vgs sel g)) = do_exit g.
Proof.
  unfold thread_round. destruct (0 <? sel).
  - destruct (actuator_wake_fields vgs g) as (_ & Hev & _ & _ & _ & Hde & _).
    destruct (actuator_wake vgs g) as [g1 evs]. cbn [fst snd] in *.
    split; [|exact Hde]. rewrite Hev.
    destruct (new_index g =? gain_index g); reflexivity.
  - split; reflexivity.
Qed.

(** While nobody asks for the end, the thread keeps looping, one wait
    per round. *)
Lemma thread_keeps_looping (vgs : Z -> Z) (env : list round_env) :
  forall g,
    do_exit g = 0 -> no_exit_request env ->
    let r := set_new_gain_thread vgs env g in
    fst (fst r) = Looping /\ do_exit (snd (fst r)) = 0 /\
    filter is_select (snd r) = repeat (EvSelect 1 0) (length env).
Proof.
  induction env as [|e env IH]; intros g Hg Hno.
  - cbn. repeat split; assumption.
  - inversion Hno as [|? ? He Hrest]; subst.
    cbv zeta. cbn [set_new_gain_thread].
    destruct (thread_round_select vgs (selected e) g) as (Hs & Hd).
    destruct (thread_round vgs (selected e) g) as [g1 evs].
    cbn [fst snd] in *. rewrite He, Hd, Hg. cbn [Z.eqb].
    specialize (IH g1 ltac:(congruence) Hrest). cbv zeta in IH.
    destruct (set_new_gain_thread vgs env g1) as [[st g3] evs'].
    cbn [fst snd] in *. destruct IH as (H1 & H2 & H3).
    repeat split; try assumption.
    rewrite filter_app, Hs, H3. reflexivity.
Qed.

(** The round in which the flag is set is the last one. *)
Lemma thread_last_round (vgs : Z -> Z) (e : round_env)
    (post : list round_env) (g : globals) :
  exit_requested e = true \/ do_exit g <> 0 ->
  let r := set_new_gain_thread vgs (e :: post) g in
  fst (fst r) = Returned /\ do_exit (snd (fst r)) <> 0 /\
  filter is_select (snd r) = [EvSelect 1 0].
Proof.
  intros H. cbv zeta. cbn [set_new_gain_thread].
  destruct (thread_round_select vgs (selected e) g) as (Hs & Hd).
  destruct (thread_round vgs (selected e) g) as [g1 evs].
  cbn [fst snd] in *.
  assert (Hx : do_exit (if exit_requested e then set_do_exit 1 g1 else g1)
               <> 0).
  { destruct H as [-> | H]; [cbn; lia|].
    destruct (exit_requested e); [cbn; lia | congruence]. }
  destruct (Z.eqb_spec
              (do_exit (if exit_requested e then set_do_exit 1 g1 else g1)) 0);
    [contradiction|].
  cbn [fst snd]. repeat split; assumption.
Qed.

(** C8: the round in which the exit flag is found set is the last: the
    thread function returns without another wait, whatever the rounds
    still on offer and whatever [select] returned, also when it never
    reported a signal.  Each wait carries the one-second timeout, so a
    request for the end is followed by at most the wait of its round. *)
Theorem C8_thread_returns_on_exit (vgs : Z -> Z)
    (pre post : list round_env) (e : round_env) (g : globals) :
  do_exit g = 0 -> no_exit_request pre -> exit_requested e = true ->
  let before := set_new_gain_thread vgs pre g in
  let r := set_new_gain_thread vgs (pre ++ e :: post) g in
  fst (fst before) = Looping /\
  fst (fst r) = Returned /\
  do_exit (snd (fst r)) = 1 /\
  filter is_select (snd r) = repeat (EvSelect 1 0) (length pre + 1) /\
  set_new_gain_thread vgs (pre ++ [e]) g = r.
Proof.
  intros Hg Hno He. cbv zeta.
  split; [apply (thread_keeps_looping vgs pre g Hg Hno)|].
  revert g Hg.
  induction pre as [|p pre IH]; intros g Hg.
  - cbn [app length Nat.add repeat].
    cbn [set_new_gain_thread].
    destruct (thread_round_select vgs (selected e) g) as (Hs & Hd).
    destruct (thread_round vgs (selected e) g) as [g1 evs].
    cbn [fst snd] in *. rewrite He. cbn [do_exit set_do_exit Z.eqb fst snd].
    repeat split; assumption.
  - inversion Hno as [|? ? Hp Hrest]; subst.
    cbn [app length Nat.add repeat set_new_gain_thread].
    destruct (thread_round_select vgs (selected p) g) as (Hs & Hd).
    destruct (thread_round vgs (selected p) g) as [g1 evs].
    cbn [fst snd] in *. rewrite Hp, Hd, Hg. cbn [Z.eqb].
    specialize (IH Hrest g1 ltac:(congruence)).
    destruct (set_new_gain_thread vgs (pre ++ e :: post) g1) as [[st g3] evs'].
    destruct (set_new_gain_thread vgs (pre ++ [e]) g1) as [[st' g3'] evs''].
    cbn [fst snd] in *. destruct IH as (H1 & H2 & H3 & H4).
    repeat split; try assumption.
    + rewrite filter_app, Hs, H3. reflexivity.
    + congruence.
Qed.

Lemma C8_thread_returns_on_exit_witness :
  fst (fst (set_new_gain_thread (fun _ => 0)
              ([mkRoundEnv 0 false; mkRoundEnv 0 false]
               ++ mkRoundEnv 0 true :: [mkRoundEnv 1 false]) agc_example))
  = Returned.
Proof.
  refine (proj1 (proj2
    (C8_thread_returns_on_exit (fun _ => 0)
       [mkRoundEnv 0 false; mkRoundEnv 0 false] [mkRoundEnv 1 false]
       (mkRoundEnv 0 true) agc_example eq_refl _ eq_refl))).
  repeat constructor.
Defined.

(** ** Gain set-up *)

(** C10: with a negative gain argument, set-up leaves the index at half
    the number of gains the tuner reports (integer division), and asks
    the tuner once for the gain at that index of the table, which is the
    tuner's own value there when it reports between 1 and 100 gains; the
    argument becomes the target. *)
Theorem C10_initial_gain_index (vgs : Z -> Z) (tuner_gains : list Z)
    (nearest : Z -> Z) (gain samp_rate : Z) (g : globals) :
  gain < 0 ->
  let r := main_gain_setup vgs tuner_gains nearest gain samp_rate g in
  let count := Z.of_nat (length tuner_gains) in
  gain_count (fst r) = count /\
  gain_index (fst r) = count / 2 /\
  snd r = [SetupGainSet (gain_at (gains (fst r)) (count / 2))] /\
  current_gain (fst r) = gain_at (gains (fst r)) (count / 2) /\
  (1 <= count <= 100 ->
   gain_at (gains (fst r)) (count / 2) =
   nth (Z.to_nat (count / 2)) tuner_gains 0) /\
  target_dbfs (fst r) = gain.
Proof.
  intros Hneg. cbv zeta. unfold main_gain_setup.
  destruct (Z.eqb_spec gain 0); [lia|].
  destruct (Z.ltb_spec 0 gain); [lia|].
  unfold max_thread_init, create_event, initialize_gains, CInt.div.
  cbn [fst snd gain_count gain_index gains current_gain target_dbfs
       set_gain_count set_gains set_gain_index set_current_gain
       set_target_dbfs set_max_samples set_sample_index set_dbfs_lut
       set_event_count max_samples dbfs_lut].
  rewrite Z.quot_div_nonneg by lia.
  repeat split.
  intros Hc. unfold gain_at, copy_tuner_gains.
  assert (Hd : 0 <= Z.of_nat (length tuner_gains) / 2
               < Z.of_nat (length tuner_gains)).
  { split; [apply Z.div_pos; lia | apply Z.div_lt; lia]. }
  destruct (Z.leb_spec 0 (Z.of_nat (length tuner_gains) / 2)); [|lia].
  destruct (Z.ltb_spec (Z.of_nat (length tuner_gains) / 2) 100); [|lia].
  cbn [andb]. apply app_nth1. lia.
Qed.

Lemma C10_initial_gain_index_witness :
  gain_index agc_example = 29 / 2 /\
  snd (main_gain_setup (fun _ => 0) r820t_gains (fun x => x)
         (-100) 2048000 globals_at_start)
  = [SetupGainSet (gain_at (gains agc_example) (29 / 2))].
Proof.
  pose proof (C10_initial_gain_index (fun _ => 0) r820t_gains (fun x => x)
                (-100) 2048000 globals_at_start eq_refl) as H.
  cbv zeta in H. destruct H as (_ & H2 & H3 & _).
  split; [exact H2 | exact H3].
Defined.

(* ================================================================== *)
(** * Further properties of the program *)
(* ================================================================== *)

(** ** The callback: exit flag and byte budget *)

(** What one delivery does to the exit flag and to the byte budget. *)
Lemma callback_flags (buf : list byte) (len : Z) (g : globals) :
  do_exit g = 0 ->
  let g' := fst (rtlsdr_callback buf len true g) in
  do_exit g' =
    (if (0 <? bytes_to_read g) && (bytes_to_read g <? len) then 1 else 0) /\
  bytes_to_read g' =
    (if 0 <? bytes_to_read g
     then bytes_to_read g - written_len len true g
     else bytes_to_read g).
Proof.
  intros Hx. cbv zeta. unfold rtlsdr_callback, written_len. rewrite Hx.
  cbn [Z.eqb].
  destruct ((0 <? bytes_to_read g) && (bytes_to_read g <? len)) eqn:Ecut.
  - apply andb_prop in Ecut. destruct Ecut as [Hp Hl].
    destruct (target_dbfs (set_do_exit 1 g) <? 0).
    + pose proof (callback_loop_frame (Z.to_nat (bytes_to_read g / 2)) buf
                    (set_do_exit 1 g)) as Hf.
      destruct (callback_loop _ buf (set_do_exit 1 g)) as [g1 o1].
      cbn [fst] in *. destruct Hf as (_ & Hd & Hb & _).
      cbn [bytes_to_read do_exit set_do_exit] in Hd, Hb.
      rewrite Hb, Hp. cbn [fst do_exit bytes_to_read set_bytes_to_read].
      split; [exact Hd | reflexivity].
    + cbn [bytes_to_read set_do_exit]. rewrite Hp.
      cbn [fst do_exit bytes_to_read set_bytes_to_read set_do_exit].
      split; reflexivity.
  - destruct (target_dbfs g <? 0).
    + pose proof (callback_loop_frame (Z.to_nat (len / 2)) buf g) as Hf.
      destruct (callback_loop _ buf g) as [g1 o1].
      cbn [fst] in *. destruct Hf as (_ & Hd & Hb & _).
      rewrite Hb. destruct (0 <? bytes_to_read g);
        cbn [fst do_exit bytes_to_read set_bytes_to_read];
        split; congruence.
    + destruct (0 <? bytes_to_read g);
        cbn [fst do_exit bytes_to_read set_bytes_to_read];
        split; congruence.
Qed.

Lemma callback_inert_flag (blocks : list (list byte * Z)) :
  forall g, do_exit g <> 0 ->
            deliver blocks g = (g, []) /\ deliver_written blocks g = 0.
Proof.
  induction blocks as [|[buf len] rest IH]; intros g Hx.
  - split; reflexivity.
  - cbn [deliver deliver_written].
    unfold rtlsdr_callback, written_len.
    destruct (Z.eqb_spec (do_exit g) 0); [contradiction|].
    cbn [fst]. destruct (IH g Hx) as (-> & ->). split; reflexivity.
Qed.

(** X1: once the exit flag is up, as after a caught signal, deliveries
    change no global, hand over no peak and write nothing. *)
Theorem callback_inert_after_exit (blocks : list (list byte * Z))
    (g : globals) :
  do_exit g <> 0 ->
  deliver blocks g = (g, []) /\
  deliver_written blocks g = 0 /\
  deliver blocks (sighandler g) = (sighandler g, []).
Proof.
  intros Hx. destruct (callback_inert_flag blocks g Hx) as (H1 & H2).
  split; [exact H1|]. split; [exact H2|].
  apply callback_inert_flag. cbn. lia.
Qed.

Lemma callback_inert_after_exit_witness :
  deliver [(iq_block x1e x8a 256, 512)] (sighandler agc_example)
  = (sighandler agc_example, []).
Proof.
  refine (proj1 (callback_inert_after_exit [(iq_block x1e x8a 256, 512)]
                   (sighandler agc_example) _)).
  cbn. lia.
Defined.

(** Blocks that stay under the budget are written whole and counted off. *)
Lemma under_budget (blocks : list (list byte * Z)) :
  forall g,
    do_exit g = 0 ->
    Forall (fun b => 0 <= snd b) blocks ->
    total_len blocks < bytes_to_read g ->
    let g' := fst (deliver blocks g) in
    do_exit g' = 0 /\
    bytes_to_read g' = bytes_to_read g - total_len blocks /\
    deliver_written blocks g = total_len blocks.
Proof.
  induction blocks as [|[buf len] rest IH]; intros g Hx Hpos Hlt.
  - cbn. repeat split; lia.
  - inversion Hpos as [|? ? Hl Hrest]; subst. cbn [snd] in Hl.
    unfold total_len in *. cbn [fold_right snd] in *.
    fold (total_len rest) in *.
    assert (Hsum : 0 <= total_len rest).
    { clear -Hrest. induction Hrest as [|b l Hb _ IHl]; [cbn; lia|].
      unfold total_len in *. cbn [fold_right]. lia. }
    cbv zeta. cbn [deliver deliver_written].
    destruct (callback_flags buf len g Hx) as (Hd & Hb).
    assert (Hw : written_len len true g = len).
    { unfold written_len. rewrite Hx. cbn [Z.eqb].
      destruct (Z.ltb_spec 0 (bytes_to_read g)); [|lia].
      destruct (Z.ltb_spec (bytes_to_read g) len); [lia | reflexivity]. }
    rewrite Hw in *.
    destruct (Z.ltb_spec 0 (bytes_to_read g)); [|lia].
    destruct (Z.ltb_spec (bytes_to_read g) len); [lia|]. cbn [andb] in Hd.
    destruct (rtlsdr_callback buf len true g) as [g1 o1]. cbn [fst] in *.
    specialize (IH g1 Hd Hrest ltac:(lia)). cbv zeta in IH.
    destruct (deliver rest g1) as [g2 o2]. cbn [fst] in *.
    destruct IH as (I1 & I2 & I3).
    repeat split; lia.
Qed.

Lemma deliver_app (l1 l2 : list (list byte * Z)) :
  forall g,
    deliver (l1 ++ l2) g =
    (fst (deliver l2 (fst (deliver l1 g))),
     snd (deliver l1 g) ++ snd (deliver l2 (fst (deliver l1 g)))) /\
    deliver_written (l1 ++ l2) g =
    deliver_written l1 g + deliver_written l2 (fst (deliver l1 g)).
Proof.
  induction l1 as [|[buf len] l1 IH]; intros g.
  - cbn. destruct (deliver l2 g). split; reflexivity.
  - cbn [app deliver deliver_written].
    destruct (rtlsdr_callback buf len true g) as [g1 o1]. cbn [fst].
    destruct (IH g1) as (E1 & E2). rewrite E1, E2.
    destruct (deliver l1 g1) as [g2 o2]. cbn [fst snd].
    split; [now rewrite app_assoc | lia].
Qed.

(** With no budget (zero means no limit) every block is written whole. *)
Lemma no_budget (blocks : list (list byte * Z)) :
  forall g,
    do_exit g = 0 -> bytes_to_read g = 0 ->
    let g' := fst (deliver blocks g) in
    do_exit g' = 0 /\ bytes_to_read g' = 0 /\
    deliver_written blocks g = total_len blocks.
Proof.
  induction blocks as [|[buf len] rest IH]; intros g Hx Hb.
  - cbn. repeat split; assumption.
  - cbv zeta. cbn [deliver deliver_written].
    destruct (callback_flags buf len g Hx) as (Hd & Hb').
    assert (Hw : written_len len true g = len).
    { unfold written_len. now rewrite Hx, Hb. }
    rewrite Hb in Hd, Hb'. change (0 <? 0) with false in Hd, Hb'.
    cbn [andb] in Hd.
    destruct (rtlsdr_callback buf len true g) as [g1 o1]. cbn [fst] in *.
    specialize (IH g1 Hd Hb'). cbv zeta in IH.
    destruct (deliver rest g1) as [g2 o2]. cbn [fst] in *.
    destruct IH as (I1 & I2 & I3).
    unfold total_len in *. cbn [fold_right snd].
    repeat split; try assumption. lia.
Qed.

(** X2: a byte budget that runs out inside a block.  The blocks before
    are written whole, the block in which the budget runs out is cut to
    what is left of it, the exit flag is raised, and the blocks after it
    are dropped: exactly the budget is written. *)
Theorem budget_cuts_last_block (pre post : list (list byte * Z))
    (buf : list byte) (len : Z) (g : globals) :
  do_exit g = 0 ->
  Forall (fun b => 0 <= snd b) pre ->
  total_len pre < bytes_to_read g < total_len pre + len ->
  let blocks := pre ++ (buf, len) :: post in
  deliver_written blocks g = bytes_to_read g /\
  do_exit (fst (deliver blocks g)) = 1 /\
  bytes_to_read (fst (deliver blocks g)) = 0 /\
  fst (deliver blocks g) = fst (deliver (pre ++ [(buf, len)]) g).
Proof.
  intros Hx Hpos [Hlo Hhi]. cbv zeta.
  destruct (under_budget pre g Hx Hpos Hlo) as (U1 & U2 & U3).
  destruct (deliver_app pre ((buf, len) :: post) g) as (E1 & E2).
  destruct (deliver_app pre [(buf, len)] g) as (F1 & _).
  rewrite E1, E2, F1, U3. cbn [fst].
  set (g1 := fst (deliver pre g)) in *.
  cbn [deliver deliver_written].
  destruct (callback_flags buf len g1 U1) as (Hd & Hb).
  assert (Hw : written_len len true g1 = bytes_to_read g1).
  { unfold written_len. rewrite U1. cbn [Z.eqb].
    destruct (Z.ltb_spec 0 (bytes_to_read g1)); [|lia].
    destruct (Z.ltb_spec (bytes_to_read g1) len); [reflexivity | lia]. }
  rewrite Hw in *.
  destruct (Z.ltb_spec 0 (bytes_to_read g1)); [|lia].
  destruct (Z.ltb_spec (bytes_to_read g1) len); [|lia]. cbn [andb] in Hd.
  destruct (rtlsdr_callback buf len true g1) as [g2 o2]. cbn [fst] in *.
  destruct (callback_inert_flag post g2) as (I1 & I2); [lia|].
  rewrite I1, I2. cbn [fst].
  repeat split; lia.
Qed.

Lemma budget_cuts_last_block_witness :
  deliver_written
    ([(iq_block x1e x8a 256, 512)] ++
     (iq_block x1e x8a 256, 512) :: [(iq_block x1e x8a 256, 512)])
    (set_bytes_to_read 600 agc_example) = 600.
Proof.
  refine (proj1 (budget_cuts_last_block [(iq_block x1e x8a 256, 512)]
                   [(iq_block x1e x8a 256, 512)] (iq_block x1e x8a 256) 512
                   (set_bytes_to_read 600 agc_example) eq_refl _ _)).
  - repeat constructor. cbn. lia.
  - cbn. lia.
Defined.

(** X3: a byte budget that ends exactly at the end of a block.  The
    budget reaches zero without the exit flag being raised, and zero
    means no limit: every later block is written whole. *)
Theorem budget_met_exactly_is_lifted (pre post : list (list byte * Z))
    (buf : list byte) (len : Z) (g : globals) :
  do_exit g = 0 ->
  Forall (fun b => 0 <= snd b) pre ->
  0 < len ->
  total_len pre + len = bytes_to_read g ->
  let g1 := fst (deliver (pre ++ [(buf, len)]) g) in
  let blocks := pre ++ (buf, len) :: post in
  do_exit g1 = 0 /\ bytes_to_read g1 = 0 /\
  do_exit (fst (deliver blocks g)) = 0 /\
  deliver_written blocks g = bytes_to_read g + total_len post.
Proof.
  intros Hx Hpos Hlen Hsum. cbv zeta.
  destruct (under_budget pre g Hx Hpos ltac:(lia)) as (U1 & U2 & U3).
  destruct (deliver_app pre ((buf, len) :: post) g) as (E1 & E2).
  destruct (deliver_app pre [(buf, len)] g) as (F1 & _).
  rewrite E1, E2, F1, U3. cbn [fst].
  set (g1 := fst (deliver pre g)) in *.
  cbn [deliver deliver_written].
  destruct (callback_flags buf len g1 U1) as (Hd & Hb).
  assert (Hw : written_len len true g1 = len).
  { unfold written_len. rewrite U1. cbn [Z.eqb].
    destruct (Z.ltb_spec 0 (bytes_to_read g1)); [|lia].
    destruct (Z.ltb_spec (bytes_to_read g1) len); [lia | reflexivity]. }
  rewrite Hw in *.
  destruct (Z.ltb_spec 0 (bytes_to_read g1)); [|lia].
  destruct (Z.ltb_spec (bytes_to_read g1) len); [lia|]. cbn [andb] in Hd.
  destruct (rtlsdr_callback buf len true g1) as [g2 o2]. cbn [fst] in *.
  destruct (no_budget post g2 Hd ltac:(lia)) as (N1 & N2 & N3).
  rewrite N3. destruct (deliver post g2) as [g3 o3]. cbn [fst] in *.
  repeat split; try assumption; lia.
Qed.

Lemma budget_met_exactly_is_lifted_witness :
  deliver_written
    ([(iq_block x1e x8a 256, 512)] ++
     (iq_block x1e x8a 256, 512) :: [(iq_block x1e x8a 256, 512)])
    (set_bytes_to_read 1024 agc_example) = 1024 + 512.
Proof.
  refine (proj2 (proj2 (proj2
    (budget_met_exactly_is_lifted [(iq_block x1e x8a 256, 512)]
       [(iq_block x1e x8a 256, 512)] (iq_block x1e x8a 256) 512
       (set_bytes_to_read 1024 agc_example) eq_refl _ _ _)))).
  - repeat constructor. cbn. lia.
  - lia.
  - reflexivity.
Defined.

(** ** Gain modes other than gain control *)

(** With a target that is not negative the callback leaves the estimator
    and the accumulator alone. *)
Lemma deliver_without_target (blocks : list (list byte * Z)) :
  forall g,
    0 <= target_dbfs g ->
    let r := deliver blocks g in
    snd r = [] /\
    sample_index (fst r) = sample_index g /\
    max_dbfs (fst r) = max_dbfs g /\
    pid_somme (fst r) = pid_somme g /\
    event_count (fst r) = event_count g /\
    delta_gain (fst r) = delta_gain g /\
    gain_index (fst r) = gain_index g /\
    current_gain (fst r) = current_gain g.
Proof.
  induction blocks as [|[buf len] rest IH]; intros g Ht.
  - cbn. repeat split.
  - cbv zeta. cbn [deliver].
    assert (H : let g1 := fst (rtlsdr_callback buf len true g) in
                snd (rtlsdr_callback buf len true g) = [] /\
                target_dbfs g1 = target_dbfs g /\
                sample_index g1 = sample_index g /\
                max_dbfs g1 = max_dbfs g /\
                pid_somme g1 = pid_somme g /\
                event_count g1 = event_count g /\
                delta_gain g1 = delta_gain g /\
                gain_index g1 = gain_index g /\
                current_gain g1 = current_gain g).
    { cbv zeta. unfold rtlsdr_callback.
      destruct (do_exit g =? 0); [|cbn; repeat split].
      destruct ((0 <? bytes_to_read g) && (bytes_to_read g <? len));
        cbn [target_dbfs set_do_exit];
        (destruct (Z.ltb_spec (target_dbfs g) 0); [lia|]);
        cbn [bytes_to_read set_do_exit];
        destruct (0 <? bytes_to_read g); cbn; repeat split. }
    cbv zeta in H.
    destruct (rtlsdr_callback buf len true g) as [g1 o1]. cbn [fst snd] in *.
    destruct H as (-> & Ht1 & H1 & H2 & H3 & H4 & H5 & H6 & H7).
    specialize (IH g1 ltac:(lia)). cbv zeta in IH.
    destruct (deliver rest g1) as [g2 o2]. cbn [fst snd app] in *.
    destruct IH as (I0 & I1 & I2 & I3 & I4 & I5 & I6 & I7).
    repeat split; congruence.
Qed.

(** X4: with a gain argument that is not negative, set-up changes no
    global, so the target stays at its initial zero; the callback then
    never closes a window, whatever is delivered: no peak is handed over,
    and the window counter, the running maximum, the accumulator, the
    event counter and the gain index stay as they were. *)
Theorem manual_gain_never_engages (vgs : Z -> Z) (tuner_gains : list Z)
    (nearest : Z -> Z) (gain samp_rate : Z)
    (blocks : list (list byte * Z)) (g : globals) :
  0 <= gain -> 0 <= target_dbfs g ->
  let g0 := fst (main_gain_setup vgs tuner_gains nearest gain samp_rate g) in
  let r := deliver blocks g0 in
  g0 = g /\
  snd r = [] /\
  sample_index (fst r) = sample_index g /\
  max_dbfs (fst r) = max_dbfs g /\
  pid_somme (fst r) = pid_somme g /\
  event_count (fst r) = event_count g /\
  gain_index (fst r) = gain_index g.
Proof.
  intros Hg Ht. cbv zeta.
  assert (E : fst (main_gain_setup vgs tuner_gains nearest gain samp_rate g)
              = g).
  { unfold main_gain_setup. destruct (Z.eqb_spec gain 0); [reflexivity|].
    destruct (Z.ltb_spec 0 gain); [reflexivity | lia]. }
  rewrite E. split; [reflexivity|].
  destruct (deliver_without_target blocks g Ht)
    as (H0 & H1 & H2 & H3 & H4 & _ & H6 & _).
  repeat split; assumption.
Qed.

Lemma manual_gain_never_engages_witness :
  snd (deliver [(iq_block x1e x8a 256, 512)]
         (fst (main_gain_setup (fun _ => 0) r820t_gains (fun x => x)
                 254 2048000 globals_at_start))) = [].
Proof.
  exact (proj1 (proj2
    (manual_gain_never_engages (fun _ => 0) r820t_gains (fun x => x)
       254 2048000 [(iq_block x1e x8a 256, 512)] globals_at_start
       ltac:(lia) ltac:(cbn; lia)))).
Defined.

(** ** Invariants of the estimator *)

Lemma close_window_event (g : globals) :
  event_count (close_window g) =
  (if event_count g + 1 <=? EVENT_MAX then event_count g + 1
   else event_count g).
Proof.
  unfold close_window, signal_event, EVENT_MAX. cbn.
  destruct (_ <=? _); reflexivity.
Qed.

Lemma callback_round_ok (buf : list byte) (g : globals) :
  estimator_ok g ->
  estimator_ok (fst (callback_round buf g)) /\
  Forall (fun o => DBFS_MIN <= o) (snd (callback_round buf g)).
Proof.
  unfold estimator_ok. intros (Hm & HW & Hs & Hp & He).
  destruct (Z.ltb_spec 0 (sample_index g)) as [Hpos|Hz].
  - rewrite round_open by (int_bounds; lia).
    cbn [fst snd max_dbfs max_samples sample_index pid_somme event_count
         set_max_dbfs set_sample_index].
    repeat split; try lia; try apply Hp; constructor.
  - rewrite round_close by lia.
    destruct (close_window_fields g) as (Hc1 & _ & _ & Hc4 & Hf).
    destruct Hf as (_ & _ & _ & _ & Hms & _).
    pose proof (close_window_event g) as Hev.
    cbn [fst snd max_dbfs max_samples sample_index pid_somme event_count
         set_max_dbfs].
    rewrite Hc1, Hc4, Hms, Hev. unfold CInt.sub at 1 2.
    rewrite wrap_in_range by (int_bounds; lia).
    split; [|repeat constructor; lia].
    split; [lia|]. split; [lia|]. split; [lia|].
    split; [unfold CInt.add; apply wrap_range|].
    destruct (Z.leb_spec (event_count g + 1) EVENT_MAX); lia.
Qed.

Lemma callback_loop_ok (n : nat) (buf : list byte) :
  forall g,
    estimator_ok g ->
    estimator_ok (fst (callback_loop n buf g)) /\
    Forall (fun o => DBFS_MIN <= o) (snd (callback_loop n buf g)).
Proof.
  induction n as [|n IH]; intros g Hok.
  - cbn. split; [exact Hok | constructor].
  - cbn [callback_loop].
    destruct (callback_round_ok buf g Hok) as (H1 & H2).
    destruct (callback_round buf g) as [g1 o1]. cbn [fst snd] in *.
    destruct (IH g1 H1) as (H3 & H4).
    destruct (callback_loop n buf g1) as [g2 o2]. cbn [fst snd] in *.
    split; [exact H3 | apply Forall_app; split; assumption].
Qed.

Lemma rtlsdr_callback_ok (buf : list byte) (len : Z) (ctx : bool)
    (g : globals) :
  estimator_ok g ->
  estimator_ok (fst (rtlsdr_callback buf len ctx g)) /\
  Forall (fun o => DBFS_MIN <= o) (snd (rtlsdr_callback buf len ctx g)).
Proof.
  intros Hok. unfold rtlsdr_callback.
  destruct ctx; [|split; [exact Hok | constructor]].
  destruct (do_exit g =? 0); [|split; [exact Hok | constructor]].
  assert (Hok1 : forall v, estimator_ok (set_do_exit v g)) by (intros; exact Hok).
  destruct ((0 <? bytes_to_read g) && (bytes_to_read g <? len)).
  - cbn [target_dbfs set_do_exit].
    destruct (target_dbfs g <? 0).
    + destruct (callback_loop_ok (Z.to_nat (bytes_to_read g / 2)) buf
                  (set_do_exit 1 g) (Hok1 1)) as (H1 & H2).
      destruct (callback_loop _ buf (set_do_exit 1 g)) as [g1 o1].
      cbn [fst snd] in *.
      destruct (0 <? bytes_to_read g1); split; assumption.
    + cbn [bytes_to_read set_do_exit].
      destruct (0 <? bytes_to_read g); cbn [fst snd];
        (split; [exact Hok | constructor]).
  - destruct (target_dbfs g <? 0).
    + destruct (callback_loop_ok (Z.to_nat (len / 2)) buf g Hok) as (H1 & H2).
      destruct (callback_loop _ buf g) as [g1 o1]. cbn [fst snd] in *.
      destruct (0 <? bytes_to_read g1); split; assumption.
    + destruct (0 <? bytes_to_read g); cbn [fst snd];
        (split; [exact Hok | constructor]).
Qed.

(** X5: the estimator keeps its globals well formed through any sequence
    of deliveries: the running maximum is never below [DBFS_MIN], the
    window counter stays between zero and the window length, the
    accumulator stays an [int] and the event counter stays within its
    range; and no peak handed over is below [DBFS_MIN]. *)
Theorem estimator_invariant (blocks : list (list byte * Z)) (g : globals) :
  estimator_ok g ->
  estimator_ok (fst (deliver blocks g)) /\
  Forall (fun o => DBFS_MIN <= o) (snd (deliver blocks g)).
Proof.
  revert g. induction blocks as [|[buf len] rest IH]; intros g Hok.
  - cbn. split; [exact Hok | constructor].
  - cbn [deliver].
    destruct (rtlsdr_callback_ok buf len true g Hok) as (H1 & H2).
    destruct (rtlsdr_callback buf len true g) as [g1 o1]. cbn [fst snd] in *.
    destruct (IH g1 H1) as (H3 & H4).
    destruct (deliver rest g1) as [g2 o2]. cbn [fst snd] in *.
    split; [exact H3 | apply Forall_app; split; assumption].
Qed.

Lemma agc_example_ok : estimator_ok agc_example.
Proof.
  unfold estimator_ok.
  destruct agc_example_fields
    as (_ & _ & _ & _ & Hm & Hs & Hd & Hp & _).
  rewrite Hm, Hs, Hd, Hp.
  change (event_count agc_example) with 0.
  unfold DBFS_MIN, EVENT_MAX. int_bounds. lia.
Qed.

Lemma estimator_invariant_witness :
  estimator_ok
    (fst (deliver [(iq_block x1e x8a (Z.to_nat 409601), 819202)] agc_example)).
Proof.
  exact (proj1 (estimator_invariant
                  [(iq_block x1e x8a (Z.to_nat 409601), 819202)]
                  agc_example agc_example_ok)).
Defined.

(** ** The rate of the peaks *)

Lemma div_mod_shift (n w : Z) :
  0 < w -> (n - w) / w + 1 = n / w /\ (n - w) mod w = n mod w.
Proof.
  intros Hw.
  assert (E : n = (n - w) + 1 * w) by lia.
  split.
  - rewrite E at 2. rewrite Z.div_add by lia. reflexivity.
  - rewrite E at 2. rewrite Z.mod_add by lia. reflexivity.
Qed.

(** X6: how many peaks [n] pairs produce.  With the counter at [c] and a
    window of [W] pairs, the first peak is handed over by pair [c + 1] and
    one more by every [W] pairs after it; the counter is left accordingly. *)
Theorem peaks_per_pairs (n : nat) (buf : list byte) (g : globals) :
  estimator_ok g ->
  let W := max_samples g in
  let c := sample_index g in
  let r := callback_loop n buf g in
  Z.of_nat (length (snd r)) =
    (if Z.of_nat n <=? c then 0 else (Z.of_nat n - c - 1) / W + 1) /\
  sample_index (fst r) =
    (if Z.of_nat n <=? c then c - Z.of_nat n
     else W - 1 - (Z.of_nat n - c - 1) mod W).
Proof.
  revert g. induction n as [|n IH]; intros g Hok.
  - cbv zeta. cbn [callback_loop fst snd length].
    destruct Hok as (_ & _ & Hs & _).
    change (Z.of_nat 0) with 0.
    destruct (Z.leb_spec 0 (sample_index g)); lia.
  - cbv zeta. rewrite Nat2Z.inj_succ. cbn [callback_loop].
    destruct (callback_round_ok buf g Hok) as (Hok1 & _).
    pose proof Hok as (_ & HW & Hs & _).
    destruct (Z.ltb_spec 0 (sample_index g)) as [Hpos|Hz].
    + (* the window is open *)
      rewrite round_open in * by (int_bounds; lia).
      specialize (IH _ Hok1). cbv zeta in IH.
      cbn [fst snd max_samples sample_index set_max_dbfs set_sample_index]
        in IH.
      destruct (callback_loop n buf _) as [g2 o2]. cbn [fst snd app] in *.
      destruct IH as (I1 & I2). rewrite I1, I2.
      destruct (Z.leb_spec (Z.of_nat n) (sample_index g - 1)),
        (Z.leb_spec (Z.succ (Z.of_nat n)) (sample_index g)); try lia.
      split.
      * do 2 f_equal. lia.
      * do 2 f_equal. f_equal. lia.
    + (* the counter is at zero: the window closes *)
      assert (Hc : sample_index g = 0) by lia.
      rewrite round_close in * by lia.
      destruct (close_window_fields g) as (Hc1 & _ & _ & _ & Hf).
      destruct Hf as (_ & _ & _ & _ & Hms & _).
      specialize (IH _ Hok1). cbv zeta in IH.
      cbn [fst snd max_samples sample_index set_max_dbfs] in IH.
      rewrite Hc1, Hms in IH. unfold CInt.sub in IH.
      rewrite wrap_in_range in IH by (int_bounds; lia).
      destruct (callback_loop n buf _) as [g2 o2]. cbn [fst snd app length] in *.
      destruct IH as (I1 & I2).
      rewrite Nat2Z.inj_succ, I1, I2, Hc.
      destruct (Z.leb_spec (Z.succ (Z.of_nat n)) 0); [lia|].
      replace (Z.succ (Z.of_nat n) - 0 - 1) with (Z.of_nat n) by lia.
      destruct (Z.leb_spec (Z.of_nat n) (max_samples g - 1)).
      * rewrite Z.div_small, Z.mod_small by lia. split; lia.
      * replace (Z.of_nat n - (max_samples g - 1) - 1)
          with (Z.of_nat n - max_samples g) by lia.
        destruct (div_mod_shift (Z.of_nat n) (max_samples g) ltac:(lia))
          as (E1 & E2).
        rewrite E2. split; lia.
Qed.

Lemma peaks_per_pairs_witness :
  Z.of_nat (length (snd (callback_loop (Z.to_nat 1000000)
                           (iq_block x1e x8a 256) agc_example)))
  = (if Z.of_nat (Z.to_nat 1000000) <=? sample_index agc_example then 0
     else (Z.of_nat (Z.to_nat 1000000) - sample_index agc_example - 1)
          / max_samples agc_example + 1).
Proof.
  exact (proj1 (peaks_per_pairs (Z.to_nat 1000000) (iq_block x1e x8a 256)
                  agc_example agc_example_ok)).
Defined.

(** ** The accumulator over a block *)

Lemma wrap_add_l (a b : Z) : CInt.wrap (CInt.wrap a + b) = CInt.wrap (a + b).
Proof.
  unfold CInt.wrap. f_equal.
  replace ((a + 2 ^ 31) mod 2 ^ 32 - 2 ^ 31 + b + 2 ^ 31)
    with ((a + 2 ^ 31) mod 2 ^ 32 + b) by lia.
  rewrite Z.add_mod_idemp_l by lia. f_equal. lia.
Qed.

Lemma wrap_add_r (a b : Z) : CInt.wrap (a + CInt.wrap b) = CInt.wrap (a + b).
Proof.
  rewrite (Z.add_comm a), wrap_add_l. f_equal. lia.
Qed.

Lemma callback_round_accumulates (buf : list byte) (g : globals) :
  estimator_ok g ->
  let r := callback_round buf g in
  pid_somme (fst r) =
    CInt.wrap (pid_somme g + delta_sum (target_dbfs g) (snd r)) /\
  event_count (fst r) =
    Z.min (event_count g + Z.of_nat (length (snd r))) EVENT_MAX /\
  target_dbfs (fst r) = target_dbfs g.
Proof.
  intros (Hm & HW & Hs & Hp & He). cbv zeta.
  destruct (Z.ltb_spec 0 (sample_index g)) as [Hpos|Hz].
  - rewrite round_open by (int_bounds; lia).
    cbn [fst snd pid_somme event_count target_dbfs set_max_dbfs
         set_sample_index length]. unfold delta_sum. cbn [fold_right].
    rewrite Z.add_0_r, wrap_in_range by exact Hp.
    repeat split. change (Z.of_nat 0) with 0. lia.
  - rewrite round_close by lia.
    destruct (close_window_fields g) as (_ & _ & _ & Hc4 & Hf).
    destruct Hf as (_ & _ & _ & Ht & _).
    pose proof (close_window_event g) as Hev.
    cbn [fst snd pid_somme event_count target_dbfs set_max_dbfs length].
    rewrite Hc4, Hev, Ht. unfold delta_sum. cbn [fold_right].
    unfold CInt.add, CInt.sub. rewrite wrap_add_r.
    repeat split.
    + f_equal. lia.
    + change (Z.of_nat 1) with 1.
      destruct (Z.leb_spec (event_count g + 1) EVENT_MAX); lia.
Qed.

(** X7: over the pairs of a block, the accumulator takes in the delta
    [target - peak] of every peak handed over, in 32-bit arithmetic, and
    the event counter goes up by one per peak until it reaches its
    largest value, where it stays. *)
Theorem accumulator_over_block (n : nat) (buf : list byte) (g : globals) :
  estimator_ok g ->
  let r := callback_loop n buf g in
  pid_somme (fst r) =
    CInt.wrap (pid_somme g + delta_sum (target_dbfs g) (snd r)) /\
  event_count (fst r) =
    Z.min (event_count g + Z.of_nat (length (snd r))) EVENT_MAX.
Proof.
  intros Hok.
  assert (H : let r := callback_loop n buf g in
              pid_somme (fst r) =
                CInt.wrap (pid_somme g + delta_sum (target_dbfs g) (snd r)) /\
              event_count (fst r) =
                Z.min (event_count g + Z.of_nat (length (snd r))) EVENT_MAX /\
              target_dbfs (fst r) = target_dbfs g).
  { revert g Hok. induction n as [|n IH]; intros g Hok.
    - cbv zeta. cbn [callback_loop fst snd length]. unfold delta_sum.
      cbn [fold_right]. destruct Hok as (_ & _ & _ & Hp & He).
      rewrite Z.add_0_r, wrap_in_range by exact Hp.
      change (Z.of_nat 0) with 0. repeat split. lia.
    - cbv zeta. cbn [callback_loop].
      destruct (callback_round_ok buf g Hok) as (Hok1 & _).
      destruct (callback_round_accumulates buf g Hok) as (R1 & R2 & R3).
      destruct (callback_round buf g) as [g1 o1]. cbn [fst snd] in *.
      specialize (IH g1 Hok1). cbv zeta in IH.
      destruct (callback_loop n buf g1) as [g2 o2]. cbn [fst snd] in *.
      destruct IH as (I1 & I2 & I3).
      rewrite I1, I2, I3, R1, R2, R3, delta_sum_app, length_app,
        Nat2Z.inj_add, wrap_add_l.
      destruct Hok as (_ & _ & _ & _ & He).
      repeat split; [f_equal; lia | lia]. }
  cbv zeta in *. destruct H as (H1 & H2 & _). split; assumption.
Qed.

Lemma accumulator_over_block_witness :
  event_count (fst (callback_loop (Z.to_nat 1000000)
                      (iq_block x1e x8a 256) agc_example))
  = Z.min (event_count agc_example
           + Z.of_nat (length (snd (callback_loop (Z.to_nat 1000000)
                                      (iq_block x1e x8a 256) agc_example))))
          EVENT_MAX.
Proof.
  exact (proj2 (accumulator_over_block (Z.to_nat 1000000)
                  (iq_block x1e x8a 256) agc_example agc_example_ok)).
Defined.

(** ** The table as a function of the magnitude *)

(** Truncation toward zero keeps the order. *)
Lemma float_to_int_mono (r1 r2 : R) :
  (r1 <= r2)%R -> float_to_int r1 <= float_to_int r2.
Proof.
  intros H.
  destruct (float_to_int_spec r1) as (P1 & N1).
  destruct (float_to_int_spec r2) as (P2 & N2).
  destruct (Rle_dec 0 r1) as [H1|H1], (Rle_dec 0 r2) as [H2|H2].
  - specialize (P1 H1). specialize (P2 H2).
    assert (L : (IZR (float_to_int r1) < IZR (float_to_int r2 + 1))%R)
      by (rewrite plus_IZR; lra).
    apply lt_IZR in L. lia.
  - lra.
  - specialize (N1 ltac:(lra)). specialize (P2 H2).
    assert (L1 : (IZR (float_to_int r1) < IZR 1)%R) by lra.
    assert (L2 : (IZR (-1) < IZR (float_to_int r2))%R) by lra.
    apply lt_IZR in L1. apply lt_IZR in L2. lia.
  - specialize (N1 ltac:(lra)). specialize (N2 ltac:(lra)).
    assert (L : (IZR (float_to_int r1) < IZR (float_to_int r2 + 1))%R)
      by (rewrite plus_IZR; lra).
    apply lt_IZR in L. lia.
Qed.

Lemma ln_mono (x y : R) : (0 < x)%R -> (x <= y)%R -> (ln x <= ln y)%R.
Proof.
  intros Hx [Hlt | ->]; [left; now apply ln_increasing | right; reflexivity].
Qed.

Lemma scaled_log_mono (m m' : Z) :
  0 < m <= m' -> (scaled_log m <= scaled_log m')%R.
Proof.
  intros [Hm Hle]. unfold scaled_log.
  apply IZR_lt in Hm. apply IZR_le in Hle.
  assert (ln (IZR m / 16384) <= ln (IZR m' / 16384))%R.
  { apply ln_mono; lra. }
  lra.
Qed.

(** The entry of a pair in terms of its magnitude. *)
Lemma lut_by_magnitude (t : table) (i q : Z) :
  0 <= i < 256 -> 0 <= q < 256 ->
  dbfs_lut_init t i q =
  (if 0 <? Spec.magnitude i q
   then float_to_int (scaled_log (Spec.magnitude i q))
   else DBFS_MIN).
Proof.
  intros Hi Hq. rewrite dbfs_lut_init_lookup by assumption.
  unfold dbfs_value, Spec.magnitude. cbv zeta. rewrite !Z.pow_2_r.
  reflexivity.
Qed.

(** X8: the score of a pair depends on its centered magnitude alone, and
    among pairs of non-zero magnitude a larger magnitude never scores
    lower. *)
Theorem score_follows_magnitude (t : table) (i q i' q' : Z) :
  0 <= i < 256 -> 0 <= q < 256 -> 0 <= i' < 256 -> 0 <= q' < 256 ->
  (Spec.magnitude i q = Spec.magnitude i' q' ->
   dbfs_lut_init t i q = dbfs_lut_init t i' q') /\
  (0 < Spec.magnitude i q <= Spec.magnitude i' q' ->
   dbfs_lut_init t i q <= dbfs_lut_init t i' q').
Proof.
  intros Hi Hq Hi' Hq'.
  rewrite !lut_by_magnitude by assumption. split.
  - intros ->. reflexivity.
  - intros [Hpos Hle].
    destruct (Z.ltb_spec 0 (Spec.magnitude i q)); [|lia].
    destruct (Z.ltb_spec 0 (Spec.magnitude i' q')); [|lia].
    apply float_to_int_mono, scaled_log_mono. lia.
Qed.

Lemma score_follows_magnitude_witness :
  dbfs_lut_init lut_zero 159 128 <= dbfs_lut_init lut_zero 30 138.
Proof.
  refine (proj2 (score_follows_magnitude lut_zero 159 128 30 138
                   _ _ _ _) _); try lia.
  split; [reflexivity | apply Z.leb_le; reflexivity].
Defined.

(** ** Bounds on the table *)

Lemma exp_1_lower : (43046721 / 16777216 <= exp 1)%R.
Proof.
  pose proof (exp_ineq1_le (/ 8)) as H8.
  assert (E4 : exp (/ 4) = (exp (/ 8) * exp (/ 8))%R).
  { rewrite <- exp_plus. f_equal. lra. }
  assert (E2 : exp (/ 2) = (exp (/ 4) * exp (/ 4))%R).
  { rewrite <- exp_plus. f_equal. lra. }
  assert (E1 : exp 1 = (exp (/ 2) * exp (/ 2))%R).
  { rewrite <- exp_plus. f_equal. lra. }
  assert (H4 : (81 / 64 <= exp (/ 4))%R) by (rewrite E4; nra).
  assert (H2 : (6561 / 4096 <= exp (/ 2))%R) by (rewrite E2; nra).
  rewrite E1. nra.
Qed.

Lemma exp_three_quarters_lower : (2 <= exp (3 / 4))%R.
Proof.
  pose proof (exp_ineq1_le (3 / 32)) as H.
  assert (E1 : exp (3 / 16) = (exp (3 / 32) * exp (3 / 32))%R).
  { rewrite <- exp_plus. f_equal. lra. }
  assert (E2 : exp (3 / 8) = (exp (3 / 16) * exp (3 / 16))%R).
  { rewrite <- exp_plus. f_equal. lra. }
  assert (E3 : exp (3 / 4) = (exp (3 / 8) * exp (3 / 8))%R).
  { rewrite <- exp_plus. f_equal. lra. }
  assert (H1 : (1225 / 1024 <= exp (3 / 16))%R) by (rewrite E1; nra).
  assert (H2 : (1500625 / 1048576 <= exp (3 / 8))%R) by (rewrite E2; nra).
  rewrite E3. nra.
Qed.

Lemma exp_21_halves_lower : (16384 <= exp (21 / 2))%R.
Proof.
  pose proof exp_three_quarters_lower as H.
  assert (E1 : exp (3 / 2) = (exp (3 / 4) * exp (3 / 4))%R).
  { rewrite <- exp_plus. f_equal. lra. }
  assert (E2 : exp 3 = (exp (3 / 2) * exp (3 / 2))%R).
  { rewrite <- exp_plus. f_equal. lra. }
  assert (E3 : exp 6 = (exp 3 * exp 3)%R).
  { rewrite <- exp_plus. f_equal. lra. }
  assert (E4 : exp (21 / 2) = (exp 6 * (exp 3 * exp (3 / 2)))%R).
  { rewrite <- !exp_plus. f_equal. lra. }
  assert (H1 : (4 <= exp (3 / 2))%R) by (rewrite E1; nra).
  assert (H2 : (16 <= exp 3)%R) by (rewrite E2; nra).
  assert (H3 : (256 <= exp 6)%R) by (rewrite E3; nra).
  assert (H4 : (64 <= exp 3 * exp (3 / 2))%R) by nra.
  rewrite E4. nra.
Qed.

Lemma magnitude_range (i q : Z) :
  0 <= i < 256 -> 0 <= q < 256 -> 0 <= Spec.magnitude i q <= 41348.
Proof.
  intros Hi Hq. unfold Spec.magnitude. rewrite !Z.pow_2_r.
  pose proof (Z.square_nonneg (i - 158)).
  pose proof (Z.square_nonneg (q - 128)).
  assert (0 <= (i - 158 + 158) * (158 - (i - 158)))
    by (apply Z.mul_nonneg_nonneg; lia).
  assert (0 <= (q - 128 + 128) * (128 - (q - 128)))
    by (apply Z.mul_nonneg_nonneg; lia).
  nia.
Qed.

Lemma scaled_log_upper : (scaled_log 41348 < 100)%R.
Proof.
  unfold scaled_log.
  assert (H : (ln (41348 / 16384) < 1)%R).
  { apply ln_upper; [lra|]. pose proof exp_1_lower. lra. }
  lra.
Qed.

Lemma scaled_log_lower : (-1050 <= scaled_log 1)%R.
Proof.
  unfold scaled_log.
  assert (H : (- (21 / 2) <= ln (1 / 16384))%R).
  { rewrite <- (ln_exp (- (21 / 2))). apply ln_mono; [apply exp_pos|].
    pose proof exp_21_halves_lower as Hl.
    pose proof (exp_pos (- (21 / 2))) as Hp.
    assert (E : (exp (21 / 2) * exp (- (21 / 2)) = 1)%R).
    { rewrite <- exp_plus. replace (21 / 2 + - (21 / 2))%R with 0%R by lra.
      apply exp_0. }
    nra. }
  lra.
Qed.

Lemma scaled_log_60 : (scaled_log 60 < -500)%R.
Proof.
  unfold scaled_log.
  assert (H : (ln (60 / 16384) < -5)%R).
  { apply ln_upper; [lra|].
    pose proof exp_5_le as H5. pose proof (exp_pos (-5)) as Hp.
    assert (E : (exp 5 * exp (-5) = 1)%R).
    { rewrite <- exp_plus. replace (5 + -5)%R with 0%R by ring. apply exp_0. }
    nra. }
  lra.
Qed.

(** Bounds on a real value carry over to its truncation. *)
Lemma float_to_int_between (r : R) (lo hi : Z) :
  lo <= 0 <= hi -> (IZR lo <= r < IZR hi + 1)%R ->
  lo <= float_to_int r <= hi.
Proof.
  intros Hz [Hlo Hhi].
  destruct (float_to_int_spec r) as (P & N).
  destruct Hz as [Hz1 Hz2].
  pose proof (IZR_le _ _ Hz1) as Hr1. pose proof (IZR_le _ _ Hz2) as Hr2.
  destruct (Rle_dec 0 r) as [H|H].
  - specialize (P H).
    assert (L1 : (IZR (-1) < IZR (float_to_int r))%R) by lra.
    assert (L2 : (IZR (float_to_int r) < IZR (hi + 1))%R)
      by (rewrite plus_IZR; lra).
    apply lt_IZR in L1. apply lt_IZR in L2. lia.
  - specialize (N ltac:(lra)).
    assert (L1 : (IZR (float_to_int r) < IZR 1)%R) by lra.
    assert (L2 : (IZR (lo - 1) < IZR (float_to_int r))%R)
      by (rewrite minus_IZR; lra).
    apply lt_IZR in L1. apply lt_IZR in L2. lia.
Qed.

(** X9: every entry of the table lies between -1050 and 99, so a delta
    [target - peak] stays far from the ends of [int] for any reasonable
    target; and a pair of non-zero magnitude at most 60 scores below
    [DBFS_MIN], the value the running maximum starts from. *)
Theorem table_bounds (t : table) (i q : Z) :
  0 <= i < 256 -> 0 <= q < 256 ->
  -1050 <= dbfs_lut_init t i q <= 99 /\
  (0 < Spec.magnitude i q <= 60 -> dbfs_lut_init t i q < DBFS_MIN).
Proof.
  intros Hi Hq. rewrite lut_by_magnitude by assumption.
  pose proof (magnitude_range i q Hi Hq) as Hm.
  destruct (Z.ltb_spec 0 (Spec.magnitude i q)) as [Hpos|Hz].
  - pose proof (scaled_log_mono 1 (Spec.magnitude i q) ltac:(lia)) as L1.
    pose proof (scaled_log_mono (Spec.magnitude i q) 41348 ltac:(lia)) as L2.
    pose proof scaled_log_upper. pose proof scaled_log_lower.
    split.
    + apply float_to_int_between; [lia | lra].
    + intros [_ H60].
      pose proof (scaled_log_mono (Spec.magnitude i q) 60 ltac:(lia)) as L3.
      pose proof scaled_log_60.
      destruct (float_to_int_spec (scaled_log (Spec.magnitude i q)))
        as (_ & N).
      specialize (N ltac:(lra)).
      apply lt_IZR. unfold DBFS_MIN. lra.
  - unfold DBFS_MIN. split; [lia | intros; lia].
Qed.

Lemma table_bounds_witness :
  -1050 <= dbfs_lut_init lut_zero 160 133 <= 99 /\
  dbfs_lut_init lut_zero 160 133 < DBFS_MIN.
Proof.
  pose proof (table_bounds lut_zero 160 133 ltac:(lia) ltac:(lia)) as [H1 H2].
  split; [exact H1 | apply H2].
  split; [reflexivity | apply Z.leb_le; reflexivity].
Defined.

(** ** Wakes in a row *)

(** One wake, with the index inside the table. *)
Lemma wake_step (vgs : Z -> Z) (g : globals) :
  CInt.int_range (pid_somme g) ->
  2 <= gain_count g <= CInt.INT_MAX ->
  index_in_table g ->
  let r := actuator_wake vgs g in
  let s := Spec.step_value (Spec.pending_step (pid_somme g)) in
  pid_somme (fst r) = pid_somme g - 300 * s /\
  gain_index (fst r) = Z.max 1 (Z.min (gain_index g + s) (gain_count g - 1)) /\
  gain_count (fst r) = gain_count g /\
  Z.of_nat (length (filter is_gain_set (snd r))) =
    (if gain_index (fst r) =? gain_index g then 0 else 1).
Proof.
  intros Hr Hc Hi. unfold index_in_table in Hi. cbv zeta.
  destruct (actuator_wake_fields vgs g)
    as (Hn & Hev & _ & Hgc & _ & _ & _ & Hp).
  rewrite Hn, Hev, Hgc, Hp, new_index_in_range by exact Hr.
  rewrite check_pid_in_range by exact Hr.
  cbn [pid_somme clear_event set_event_count].
  unfold usable_index, CInt.add, CInt.sub.
  rewrite (wrap_in_range (gain_count g - 1)) by (int_bounds; lia).
  destruct (Spec.pending_step (pid_somme g)) as [[|]|];
    cbn [Spec.step_value fst pid_somme set_pid_somme];
    rewrite ?wrap_in_range by (int_bounds; lia);
    cbn [pid_somme clear_event set_event_count];
    (split; [lia|]);
    repeat case_ltb; try lia;
    (split; [lia|]); (split; [reflexivity|]);
    case_eqb; cbn [filter is_gain_set length]; lia.
Qed.

Lemma wakes_upward (vgs : Z -> Z) (k : nat) :
  forall g,
    0 <= pid_somme g <= CInt.INT_MAX ->
    2 <= gain_count g <= CInt.INT_MAX ->
    index_in_table g ->
    let r := wakes vgs k g in
    let m := Z.min (Z.of_nat k) (Z.max 0 (pid_somme g - 1) / 300) in
    pid_somme (fst r) = pid_somme g - 300 * m /\
    gain_index (fst r) = Z.min (gain_index g + m) (gain_count g - 1) /\
    Z.of_nat (length (filter is_gain_set (snd r))) =
      Z.min m (gain_count g - 1 - gain_index g).
Proof.
  induction k as [|k IH]; intros g Hp Hc Hi.
  - cbv zeta. cbn [wakes fst snd filter length]. change (Z.of_nat 0) with 0.
    unfold index_in_table in Hi.
    assert (0 <= Z.max 0 (pid_somme g - 1) / 300) by (apply Z.div_pos; lia).
    repeat split; lia.
  - cbv zeta. cbn [wakes]. rewrite Nat2Z.inj_succ.
    destruct (wake_step vgs g ltac:(int_bounds; lia) Hc Hi)
      as (W1 & W2 & W3 & W4).
    unfold index_in_table in Hi.
    destruct (actuator_wake vgs g) as [g1 e1]. cbn [fst snd] in *.
    assert (Hs : Spec.step_value (Spec.pending_step (pid_somme g)) =
                 if 300 <? pid_somme g then 1 else 0).
    { unfold Spec.pending_step, Spec.threshold.
      destruct (Z.ltb_spec 300 (pid_somme g)); [reflexivity|].
      destruct (Z.ltb_spec (pid_somme g) (- (300))); [lia | reflexivity]. }
    rewrite Hs in W1, W2.
    assert (Hi1 : index_in_table g1).
    { unfold index_in_table. rewrite W2, W3.
      destruct (300 <? pid_somme g); lia. }
    specialize (IH g1).
    assert (Hp1 : 0 <= pid_somme g1 <= CInt.INT_MAX).
    { rewrite W1. destruct (Z.ltb_spec 300 (pid_somme g)); lia. }
    specialize (IH Hp1 ltac:(rewrite W3; exact Hc) Hi1). cbv zeta in IH.
    destruct (wakes vgs k g1) as [g2 e2]. cbn [fst snd] in *.
    destruct IH as (I1 & I2 & I3).
    rewrite filter_app, length_app, Nat2Z.inj_add, I1, I2, I3, W1, W2, W3, W4.
    assert (Hk : 0 <= Z.of_nat k) by lia.
    destruct (Z.ltb_spec 300 (pid_somme g)) as [Hbig|Hsmall].
    + assert (E : Z.max 0 (pid_somme g - 300 * 1 - 1) / 300 =
                  Z.max 0 (pid_somme g - 1) / 300 - 1).
      { rewrite !Z.max_r by lia.
        replace (pid_somme g - 1) with (pid_somme g - 300 * 1 - 1 + 1 * 300)
          by lia.
        rewrite Z.div_add by lia. lia. }
      rewrite E.
      assert (0 <= Z.max 0 (pid_somme g - 1) / 300 - 1).
      { rewrite <- E. apply Z.div_pos; lia. }
      compare_cases.
    + assert (E : Z.max 0 (pid_somme g - 1) / 300 = 0).
      { apply Z.div_small. lia. }
      replace (pid_somme g - 300 * 0) with (pid_somme g) by lia.
      rewrite E. compare_cases.
Qed.

Lemma wakes_downward (vgs : Z -> Z) (k : nat) :
  forall g,
    CInt.INT_MIN <= pid_somme g <= 0 ->
    2 <= gain_count g <= CInt.INT_MAX ->
    index_in_table g ->
    let r := wakes vgs k g in
    let m := Z.min (Z.of_nat k) (Z.max 0 (- pid_somme g - 1) / 300) in
    pid_somme (fst r) = pid_somme g + 300 * m /\
    gain_index (fst r) = Z.max (gain_index g - m) 1 /\
    Z.of_nat (length (filter is_gain_set (snd r))) =
      Z.min m (gain_index g - 1).
Proof.
  induction k as [|k IH]; intros g Hp Hc Hi.
  - cbv zeta. cbn [wakes fst snd filter length]. change (Z.of_nat 0) with 0.
    unfold index_in_table in Hi.
    assert (0 <= Z.max 0 (- pid_somme g - 1) / 300) by (apply Z.div_pos; lia).
    repeat split; lia.
  - cbv zeta. cbn [wakes]. rewrite Nat2Z.inj_succ.
    destruct (wake_step vgs g ltac:(int_bounds; lia) Hc Hi)
      as (W1 & W2 & W3 & W4).
    unfold index_in_table in Hi.
    destruct (actuator_wake vgs g) as [g1 e1]. cbn [fst snd] in *.
    assert (Hs : Spec.step_value (Spec.pending_step (pid_somme g)) =
                 if pid_somme g <? -300 then -1 else 0).
    { unfold Spec.pending_step, Spec.threshold.
      change (- (300)) with (-300).
      destruct (Z.ltb_spec 300 (pid_somme g)); [lia|].
      destruct (Z.ltb_spec (pid_somme g) (-300)); reflexivity. }
    rewrite Hs in W1, W2.
    assert (Hi1 : index_in_table g1).
    { unfold index_in_table. rewrite W2, W3.
      destruct (pid_somme g <? -300); lia. }
    specialize (IH g1).
    assert (Hp1 : CInt.INT_MIN <= pid_somme g1 <= 0).
    { rewrite W1. destruct (Z.ltb_spec (pid_somme g) (-300)); lia. }
    specialize (IH Hp1 ltac:(rewrite W3; exact Hc) Hi1). cbv zeta in IH.
    destruct (wakes vgs k g1) as [g2 e2]. cbn [fst snd] in *.
    destruct IH as (I1 & I2 & I3).
    rewrite filter_app, length_app, Nat2Z.inj_add, I1, I2, I3, W1, W2, W4.
    assert (Hk : 0 <= Z.of_nat k) by lia.
    destruct (Z.ltb_spec (pid_somme g) (-300)) as [Hbig|Hsmall].
    + assert (E : Z.max 0 (- (pid_somme g - 300 * -1) - 1) / 300 =
                  Z.max 0 (- pid_somme g - 1) / 300 - 1).
      { rewrite !Z.max_r by lia.
        replace (- pid_somme g - 1)
          with (- (pid_somme g - 300 * -1) - 1 + 1 * 300) by lia.
        rewrite Z.div_add by lia. lia. }
      rewrite E.
      assert (0 <= Z.max 0 (- pid_somme g - 1) / 300 - 1).
      { rewrite <- E. apply Z.div_pos; lia. }
      compare_cases.
    + assert (E : Z.max 0 (- pid_somme g - 1) / 300 = 0).
      { apply Z.div_small. lia. }
      replace (pid_somme g - 300 * 0) with (pid_somme g) by lia.
      rewrite E. compare_cases.
Qed.

(** X10: [k] wakes in a row with nothing added to the accumulator in
    between.  Each wake takes one threshold off an accumulator that is
    beyond it, until it is back inside the band, so the steps number
    [m = min k ((|acc| - 1) / 300)].  The index moves by [m] toward the
    side of the error but stops at the end of the table (count - 1 above,
    1 below), and a gain is written only while the index moves: at the
    end of the table the accumulator is still drained, without any write. *)
Theorem wakes_drain_accumulator (vgs : Z -> Z) (k : nat) (g : globals) :
  CInt.int_range (pid_somme g) ->
  2 <= gain_count g <= CInt.INT_MAX ->
  index_in_table g ->
  let r := wakes vgs k g in
  let writes := Z.of_nat (length (filter is_gain_set (snd r))) in
  (0 <= pid_somme g ->
   let m := Z.min (Z.of_nat k) (Z.max 0 (pid_somme g - 1) / 300) in
   pid_somme (fst r) = pid_somme g - 300 * m /\
   gain_index (fst r) = Z.min (gain_index g + m) (gain_count g - 1) /\
   writes = Z.min m (gain_count g - 1 - gain_index g)) /\
  (pid_somme g <= 0 ->
   let m := Z.min (Z.of_nat k) (Z.max 0 (- pid_somme g - 1) / 300) in
   pid_somme (fst r) = pid_somme g + 300 * m /\
   gain_index (fst r) = Z.max (gain_index g - m) 1 /\
   writes = Z.min m (gain_index g - 1)).
Proof.
  intros Hr Hc Hi. cbv zeta. split; intros Hs.
  - apply (wakes_upward vgs k g); [int_bounds; lia | exact Hc | exact Hi].
  - apply (wakes_downward vgs k g); [int_bounds; lia | exact Hc | exact Hi].
Qed.

Lemma wakes_drain_accumulator_witness :
  pid_somme (fst (wakes (fun _ => 0) 5 (set_pid_somme 1000 agc_example)))
  = 1000 - 300 * Z.min (Z.of_nat 5) (Z.max 0 (1000 - 1) / 300).
Proof.
  assert (Hr : CInt.int_range (pid_somme (set_pid_somme 1000 agc_example))).
  { change (CInt.int_range 1000). int_bounds. lia. }
  assert (Hc : 2 <= gain_count (set_pid_somme 1000 agc_example)
               <= CInt.INT_MAX).
  { change (2 <= 29 <= CInt.INT_MAX). int_bounds. lia. }
  assert (Hi : index_in_table (set_pid_somme 1000 agc_example)).
  { change (1 <= 14 <= 29 - 1). lia. }
  pose proof (wakes_drain_accumulator (fun _ => 0) 5 _ Hr Hc Hi) as H.
  cbv zeta in H. destruct H as (Hup & _).
  exact (proj1 (Hup ltac:(cbn; lia))).
Defined.

(** ** The two threads together *)

Lemma actuator_wake_estimator (vgs : Z -> Z) (g : globals) :
  let g' := fst (actuator_wake vgs g) in
  max_dbfs g' = max_dbfs g /\ max_samples g' = max_samples g /\
  sample_index g' = sample_index g /\ target_dbfs g' = target_dbfs g.
Proof.
  cbv zeta. unfold actuator_wake, check_pid, check_increase, check_decrease,
    apply_index.
  cbn [pid_somme clear_event set_event_count].
  destruct (300 <? pid_somme g); cbn [pid_somme set_pid_somme];
    destruct (_ <? -300); cbn [gain_index set_pid_somme set_event_count];
    destruct (negb _); cbn; repeat split.
Qed.

Lemma rtlsdr_callback_gains (buf : list byte) (len : Z) (ctx : bool)
    (g : globals) :
  let g' := fst (rtlsdr_callback buf len ctx g) in
  gain_count g' = gain_count g /\ gains g' = gains g /\
  gain_index g' = gain_index g.
Proof.
  cbv zeta. unfold rtlsdr_callback.
  destruct ctx; [|repeat split].
  destruct (do_exit g =? 0); [|repeat split].
  destruct ((0 <? bytes_to_read g) && (bytes_to_read g <? len)).
  - cbn [target_dbfs set_do_exit]. destruct (target_dbfs g <? 0).
    + pose proof (callback_loop_frame (Z.to_nat (bytes_to_read g / 2)) buf
                    (set_do_exit 1 g)) as Hf.
      destruct (callback_loop _ buf (set_do_exit 1 g)) as [g1 o1].
      cbn [fst] in *. destruct Hf as (_ & _ & _ & _ & _ & F1 & F2 & F3 & _).
      destruct (0 <? bytes_to_read g1); cbn; repeat split; assumption.
    + cbn [bytes_to_read set_do_exit].
      destruct (0 <? bytes_to_read g); cbn; repeat split.
  - destruct (target_dbfs g <? 0).
    + pose proof (callback_loop_frame (Z.to_nat (len / 2)) buf g) as Hf.
      destruct (callback_loop _ buf g) as [g1 o1].
      cbn [fst] in *. destruct Hf as (_ & _ & _ & _ & _ & F1 & F2 & F3 & _).
      destruct (0 <? bytes_to_read g1); cbn; repeat split; assumption.
    + destruct (0 <? bytes_to_read g); cbn; repeat split.
Qed.

(** A round of the thread keeps the system well formed, and what it
    writes to the tuner is an entry of the table. *)
Lemma thread_round_system (vgs : Z -> Z) (tg : list Z) (sel : Z)
    (g : globals) :
  system_ok tg g ->
  system_ok tg (fst (thread_round vgs sel g)) /\
  Forall (event_in_table tg) (snd (thread_round vgs sel g)).
Proof.
  intros (Hest & Hcnt & Hc & Hi & Hg).
  pose proof Hest as (Hm & HW & Hs & Hp & He).
  unfold thread_round. destruct (0 <? sel).
  - destruct (actuator_wake_fields vgs g)
      as (Hn & Hev & _ & Hgc & Hgs & _ & Hec & Hpid).
    destruct (actuator_wake_estimator vgs g) as (A1 & A2 & A3 & _).
    destruct (new_index_stays_in_table g Hp ltac:(int_bounds; lia) Hi)
      as (Hin & _).
    pose proof (check_pid_keeps_range (clear_event g) (gain_index g) Hp) as Hpr.
    destruct (actuator_wake vgs g) as [g1 evs]. cbn [fst snd] in *.
    split.
    + unfold system_ok, estimator_ok, index_in_table.
      rewrite A1, A2, A3, Hpid, Hec, Hgc, Hn, Hgs.
      unfold EVENT_MAX. repeat split; try lia; try apply Hpr; try assumption.
    + constructor; [split; reflexivity|]. rewrite Hev.
      destruct (new_index g =? gain_index g); constructor; [|constructor].
      cbn [event_in_table]. exists (new_index g). split; [lia|].
      apply Hg. lia.
  - cbn [fst snd].
    split; [exact (conj Hest (conj Hcnt (conj Hc (conj Hi Hg))))|].
    constructor; [split; reflexivity | constructor].
Qed.

Lemma rtlsdr_callback_system (tg : list Z) (buf : list byte) (len : Z)
    (g : globals) :
  system_ok tg g -> system_ok tg (fst (rtlsdr_callback buf len true g)).
Proof.
  intros (Hest & Hcnt & Hc & Hi & Hg).
  destruct (rtlsdr_callback_ok buf len true g Hest) as (Hest1 & _).
  destruct (rtlsdr_callback_gains buf len true g) as (G1 & G2 & G3).
  unfold system_ok, index_in_table in *. rewrite G1, G2, G3.
  exact (conj Hest1 (conj Hcnt (conj Hc (conj Hi Hg)))).
Qed.

Lemma system_run_invariant (vgs : Z -> Z) (tg : list Z)
    (acts : list action) :
  forall g looping,
    system_ok tg g ->
    system_ok tg (fst (fst (system_run vgs acts (g, looping)))) /\
    Forall (event_in_table tg) (snd (system_run vgs acts (g, looping))).
Proof.
  induction acts as [|a rest IH]; intros g looping Hok.
  - cbn. split; [exact Hok | constructor].
  - cbn [system_run].
    assert (H : system_ok tg (fst (fst (system_step vgs a (g, looping)))) /\
                Forall (event_in_table tg)
                  (snd (system_step vgs a (g, looping)))).
    { unfold system_step. destruct a as [buf len | sel | ].
      - cbn [fst snd]. split; [now apply rtlsdr_callback_system | constructor].
      - destruct looping; [|cbn [fst snd]; split; [exact Hok | constructor]].
        destruct (thread_round_system vgs tg sel g Hok) as (H1 & H2).
        destruct (thread_round vgs sel g) as [g1 evs]. cbn [fst snd] in *.
        split; assumption.
      - cbn [fst snd]. split; [exact Hok | constructor]. }
    destruct (system_step vgs a (g, looping)) as [[g1 l1] e1].
    cbn [fst snd] in H. destruct H as (H1 & H2).
    destruct (IH g1 l1 H1) as (H3 & H4).
    destruct (system_run vgs rest (g1, l1)) as [[g2 l2] e2].
    cbn [fst snd] in *.
    split; [exact H3 | apply Forall_app; split; assumption].
Qed.

(** Set-up for gain control leaves the system well formed. *)
Lemma setup_system_ok (vgs : Z -> Z) (tg : list Z) (nearest : Z -> Z)
    (gain samp_rate : Z) (g : globals) :
  gain < 0 ->
  2 <= Z.of_nat (length tg) <= 100 ->
  5 <= samp_rate < 2 ^ 32 ->
  CInt.int_range (pid_somme g) -> DBFS_MIN <= max_dbfs g ->
  system_ok tg (fst (main_gain_setup vgs tg nearest gain samp_rate g)).
Proof.
  intros Hneg Hlen Hrate Hp Hm. unfold main_gain_setup.
  destruct (Z.eqb_spec gain 0); [lia|].
  destruct (Z.ltb_spec 0 gain); [lia|].
  unfold system_ok, estimator_ok, index_in_table, max_thread_init,
    create_event, initialize_gains, CInt.div, MAX_HZ, EVENT_MAX.
  cbn [fst max_dbfs max_samples sample_index pid_somme event_count
       gain_count gain_index gains
       set_gain_count set_gains set_gain_index set_current_gain
       set_target_dbfs set_max_samples set_sample_index set_dbfs_lut
       set_event_count].
  rewrite !Z.quot_div_nonneg by lia.
  assert (H5 : 1 <= samp_rate / 5 <= CInt.INT_MAX).
  { split; [apply Z.div_le_lower_bound; lia|].
    apply Z.lt_le_incl, Z.div_lt_upper_bound; int_bounds; lia. }
  assert (H2 : 1 <= Z.of_nat (length tg) / 2 <= Z.of_nat (length tg) - 1).
  { split; [apply Z.div_le_lower_bound; lia|].
    assert (Z.of_nat (length tg) / 2 < Z.of_nat (length tg))
      by (apply Z.div_lt; lia).
    lia. }
  repeat split; try lia; try apply Hp.
  intros i Hi. unfold gain_at, copy_tuner_gains.
  destruct (Z.leb_spec 0 i); [|lia].
  destruct (Z.ltb_spec i 100); [|lia].
  cbn [andb]. apply app_nth1. lia.
Qed.

(** X11: gain control set up on a tuner that reports between 2 and 100
    gains, followed by deliveries, rounds of the thread and signals in any
    order.  The index always stays in [1, count - 1], the estimator's
    globals stay well formed, every gain the thread writes is one of the
    tuner's gains at an index from 1 to count - 1 (never the lowest, never
    a cell past the table), and every wait is of one second. *)
Theorem gain_writes_stay_in_table (vgs : Z -> Z) (tuner_gains : list Z)
    (nearest : Z -> Z) (gain samp_rate : Z) (acts : list action)
    (g : globals) :
  gain < 0 ->
  2 <= Z.of_nat (length tuner_gains) <= 100 ->
  5 <= samp_rate < 2 ^ 32 ->
  CInt.int_range (pid_somme g) -> DBFS_MIN <= max_dbfs g ->
  let g0 := fst (main_gain_setup vgs tuner_gains nearest gain samp_rate g) in
  let r := system_run vgs acts (g0, true) in
  index_in_table (fst (fst r)) /\
  gain_count (fst (fst r)) = Z.of_nat (length tuner_gains) /\
  estimator_ok (fst (fst r)) /\
  Forall (event_in_table tuner_gains) (snd r).
Proof.
  intros Hneg Hlen Hrate Hp Hm. cbv zeta.
  pose proof (setup_system_ok vgs tuner_gains nearest gain samp_rate g
                Hneg Hlen Hrate Hp Hm) as H0.
  destruct (system_run_invariant vgs tuner_gains acts _ true H0)
    as ((Hest & Hcnt & _ & Hi & _) & Hev).
  exact (conj Hi (conj Hcnt (conj Hest Hev))).
Qed.

Lemma gain_writes_stay_in_table_witness :
  Forall (event_in_table r820t_gains)
    (snd (system_run (fun _ => 0)
            [ActDeliver (iq_block x1e x8a 256) 512; ActRound 1; ActSignal;
             ActRound 0; ActRound 1]
            (agc_example, true))).
Proof.
  refine (proj2 (proj2 (proj2
    (gain_writes_stay_in_table (fun _ => 0) r820t_gains (fun x => x)
       (-100) 2048000
       [ActDeliver (iq_block x1e x8a 256) 512; ActRound 1; ActSignal;
        ActRound 0; ActRound 1]
       globals_at_start _ _ _ _ _)))).
  - lia.
  - cbn. lia.
  - lia.
  - cbn. int_bounds. lia.
  - cbn. lia.
Defined.

(** A round writes at most one gain. *)
Lemma round_writes_at_most_once (vgs : Z -> Z) (sel : Z) (g : globals) :
  (length (filter is_gain_set (snd (thread_round vgs sel g))) <= 1)%nat.
Proof.
  unfold thread_round. destruct (0 <? sel); [|cbn; lia].
  destruct (actuator_wake_fields vgs g) as (_ & Hev & _).
  destruct (actuator_wake vgs g) as [g1 evs]. cbn [fst snd] in *.
  rewrite Hev. destruct (new_index g =? gain_index g); cbn; lia.
Qed.

(** X12: a thread that finds the exit flag already raised, as when the
    signal comes before or during its wait, still completes that round:
    exactly one wait, at most one gain write, then the function returns
    and later rounds never run. *)
Theorem thread_runs_one_round_after_exit (vgs : Z -> Z) (e : round_env)
    (post : list round_env) (g : globals) :
  do_exit g <> 0 ->
  let r := set_new_gain_thread vgs (e :: post) g in
  fst (fst r) = Returned /\
  filter is_select (snd r) = [EvSelect 1 0] /\
  (length (filter is_gain_set (snd r)) <= 1)%nat /\
  r = set_new_gain_thread vgs [e] g /\
  set_new_gain_thread vgs (e :: post) (sighandler g)
  = set_new_gain_thread vgs [e] (sighandler g).
Proof.
  intros Hx. cbv zeta.
  destruct (thread_last_round vgs e post g (or_intror Hx)) as (H1 & _ & H3).
  assert (Hgen : forall g0, do_exit g0 <> 0 ->
            set_new_gain_thread vgs (e :: post) g0 =
            set_new_gain_thread vgs [e] g0 /\
            (length (filter is_gain_set
                       (snd (set_new_gain_thread vgs [e] g0))) <= 1)%nat).
  { intros g0 H0. cbn [set_new_gain_thread].
    destruct (thread_round_select vgs (selected e) g0) as (_ & Hd).
    pose proof (round_writes_at_most_once vgs (selected e) g0) as Hlen.
    destruct (thread_round vgs (selected e) g0) as [g1 evs].
    cbn [fst snd] in *.
    assert (Hne : do_exit (if exit_requested e then set_do_exit 1 g1 else g1)
                  <> 0).
    { destruct (exit_requested e); [cbn; lia | congruence]. }
    destruct (Z.eqb_spec
                (do_exit (if exit_requested e then set_do_exit 1 g1 else g1)) 0);
      [contradiction|].
    split; [reflexivity | exact Hlen]. }
  destruct (Hgen g Hx) as (E & L).
  split; [exact H1|]. split; [exact H3|]. split; [rewrite E; exact L|].
  split; [exact E|]. apply Hgen. cbn. lia.
Qed.

Lemma thread_runs_one_round_after_exit_witness :
  fst (fst (set_new_gain_thread (fun _ => 0)
              (mkRoundEnv 1 false :: [mkRoundEnv 1 false])
              (sighandler agc_example))) = Returned.
Proof.
  refine (proj1 (thread_runs_one_round_after_exit (fun _ => 0)
                   (mkRoundEnv 1 false) [mkRoundEnv 1 false]
                   (sighandler agc_example) _)).
  cbn. lia.
Defined.

(** ** The synchronous read loop *)

Lemma sync_loop_nil (S0 : Z) (g : globals) :
  sync_loop S0 [] g =
  if negb (do_exit g =? 0) then (SyncFlag, g, []) else (SyncRunning, g, []).
Proof. reflexivity. Qed.

Lemma same_gain_control_refl (g : globals) : same_gain_control g g.
Proof. repeat split. Qed.

Lemma same_gain_control_trans (g1 g2 g3 : globals) :
  same_gain_control g1 g2 -> same_gain_control g2 g3 ->
  same_gain_control g1 g3.
Proof. unfold same_gain_control. intuition congruence. Qed.

(** X13: the synchronous loop never calls the estimator: whatever is
    read, written or caught, the window counter, the running maximum, the
    accumulator, the event counter and the gain index are left as set-up
    put them, so the event is never signalled in this mode. *)
Theorem sync_loop_leaves_gain_control (S0 : Z) (rounds : list sync_round)
    (g : globals) :
  same_gain_control g (snd (fst (sync_loop S0 rounds g))).
Proof.
  revert g. induction rounds as [|rd rest IH]; intros g.
  - rewrite sync_loop_nil. destruct (negb _); apply same_gain_control_refl.
  - cbn [sync_loop].
    destruct (negb (do_exit g =? 0)); [apply same_gain_control_refl|].
    set (g1 := if signal_caught rd then sighandler g else g).
    assert (H1 : same_gain_control g g1).
    { subst g1. destruct (signal_caught rd); repeat split. }
    destruct (read_status rd <? 0); [exact H1|].
    set (cut := (0 <? bytes_to_read g1)
                && (bytes_to_read g1 <? to_uint32 (read_count rd))).
    set (g2 := if cut then set_do_exit 1 g1 else g1).
    assert (H2 : same_gain_control g g2).
    { apply (same_gain_control_trans g g1); [exact H1|].
      subst g2. destruct cut; repeat split. }
    replace (if cut then (CInt.wrap (bytes_to_read g1), set_do_exit 1 g1)
             else (read_count rd, g1))
      with (if cut then CInt.wrap (bytes_to_read g1) else read_count rd, g2)
      by (subst g2; destruct cut; reflexivity).
    cbv beta iota.
    destruct (negb (fwrite_full rd)); [exact H2|].
    destruct (to_uint32 _ <? S0); [exact H2|].
    set (g3 := if 0 <? bytes_to_read g2 then set_bytes_to_read _ g2 else g2).
    assert (H3 : same_gain_control g g3).
    { apply (same_gain_control_trans g g2); [exact H2|].
      subst g3. destruct (0 <? bytes_to_read g2); repeat split. }
    specialize (IH g3).
    destruct (sync_loop S0 rest g3) as [[ex g4] ws]. cbn [fst snd] in *.
    exact (same_gain_control_trans _ _ _ H3 IH).
Qed.

Lemma small_is_unsigned (z : Z) :
  0 <= z < 2 ^ 31 ->
  to_uint32 z = z /\ to_size_t z = z /\ CInt.wrap z = z.
Proof.
  intros H. unfold to_uint32, to_size_t.
  rewrite !Z.mod_small by lia. repeat split.
  apply wrap_in_range. int_bounds. lia.
Qed.

(** A full round that the budget covers. *)
Lemma sync_full_round_step (S0 : Z) (rest : list sync_round) (g : globals) :
  0 < S0 < 2 ^ 31 -> do_exit g = 0 ->
  bytes_to_read g = 0 \/ S0 <= bytes_to_read g < 2 ^ 64 ->
  sync_loop S0 (full_round S0 :: rest) g =
  let '(ex, g', ws) :=
    sync_loop S0 rest
      (if 0 <? bytes_to_read g
       then set_bytes_to_read (bytes_to_read g - S0) g else g) in
  (ex, g', S0 :: ws).
Proof.
  intros HS Hx Hb.
  destruct (small_is_unsigned S0 ltac:(lia)) as (U1 & U2 & _).
  cbn [sync_loop full_round signal_caught read_status read_count fwrite_full].
  rewrite Hx. cbn [Z.eqb negb]. change (0 <? 0) with false. cbv iota.
  rewrite U1.
  destruct Hb as [Hb | Hb].
  - rewrite Hb. change (0 <? 0) with false. cbn [andb]. cbv iota.
    rewrite U1, Z.ltb_irrefl. cbn [negb]. cbv iota.
    rewrite ?Hb, ?U2. change (0 <? 0) with false. cbv iota.
    rewrite ?Hb, ?U2. change (0 <? 0) with false. cbv iota. reflexivity.
  - destruct (Z.ltb_spec 0 (bytes_to_read g)); [|lia].
    destruct (Z.ltb_spec (bytes_to_read g) S0); [lia|].
    cbn [andb negb]. cbv iota. rewrite U1, U2, Z.ltb_irrefl.
    destruct (Z.ltb_spec 0 (bytes_to_read g)); [|lia].
    rewrite Z.mod_small by lia. reflexivity.
Qed.

(** Full rounds that the budget covers are read and written whole. *)
Lemma sync_full_rounds (S0 : Z) (q : nat) :
  forall (g : globals) (rest : list sync_round) (r0 : Z),
    0 < S0 < 2 ^ 31 -> do_exit g = 0 -> 0 <= r0 ->
    bytes_to_read g = Z.of_nat q * S0 + r0 -> bytes_to_read g < 2 ^ 64 ->
    exists g',
      sync_loop S0 (repeat (full_round S0) q ++ rest) g =
      (let '(ex, g2, ws) := sync_loop S0 rest g' in
       (ex, g2, repeat S0 q ++ ws)) /\
      do_exit g' = 0 /\ bytes_to_read g' = r0.
Proof.
  induction q as [|q IH]; intros g rest r0 HS Hx Hr Hb Hlt.
  - exists g. cbn [repeat app]. destruct (sync_loop S0 rest g) as [[ex g2] ws].
    repeat split; [assumption | lia].
  - rewrite Nat2Z.inj_succ in Hb. cbn [repeat app].
    rewrite sync_full_round_step by (try assumption; right; nia).
    destruct (Z.ltb_spec 0 (bytes_to_read g)); [|nia].
    destruct (IH (set_bytes_to_read (bytes_to_read g - S0) g) rest r0 HS Hx Hr)
      as (g' & E & Hd & Hb'); cbn [bytes_to_read set_bytes_to_read]; try lia.
    exists g'. rewrite E.
    destruct (sync_loop S0 rest g') as [[ex g2] ws].
    repeat split; assumption.
Qed.

Lemma sum_repeat (v : Z) (n : nat) :
  fold_right Z.add 0 (repeat v n) = Z.of_nat n * v.
Proof.
  induction n as [|n IH]; [reflexivity|].
  cbn [repeat fold_right]. rewrite IH. lia.
Qed.

(** X14: the synchronous loop with a byte budget that is not a whole
    number of blocks.  The full blocks are written, the last read is cut
    to what is left of the budget and written, and the loop is then left
    through the test for a short read, with the exit flag raised:
    exactly the budget is written. *)
Theorem sync_budget_cuts_last_read (S0 : Z) (q : nat) (rem : Z)
    (rest : list sync_round) (g : globals) :
  0 < S0 < 2 ^ 31 -> do_exit g = 0 ->
  0 < rem < S0 ->
  bytes_to_read g = Z.of_nat q * S0 + rem -> bytes_to_read g < 2 ^ 64 ->
  let r := sync_loop S0 (repeat (full_round S0) q ++ full_round S0 :: rest) g in
  fst (fst r) = SyncShortRead /\
  snd r = repeat S0 q ++ [rem] /\
  fold_right Z.add 0 (snd r) = bytes_to_read g /\
  do_exit (snd (fst r)) = 1.
Proof.
  intros HS Hx Hrem Hb Hlt. cbv zeta.
  destruct (sync_full_rounds S0 q g (full_round S0 :: rest) rem HS Hx
              ltac:(lia) Hb Hlt) as (g' & E & Hd & Hb').
  rewrite E.
  destruct (small_is_unsigned S0 ltac:(lia)) as (U1 & _).
  destruct (small_is_unsigned rem ltac:(lia)) as (V1 & V2 & V3).
  cbn [sync_loop full_round signal_caught read_status read_count fwrite_full].
  rewrite Hd. cbn [Z.eqb negb]. change (0 <? 0) with false. cbv iota.
  rewrite U1, Hb'.
  destruct (Z.ltb_spec 0 rem); [|lia].
  destruct (Z.ltb_spec rem S0); [|lia].
  cbn [andb negb]. cbv beta iota zeta. rewrite V3, V1.
  destruct (Z.ltb_spec rem S0); [|lia].
  rewrite V2. cbn [fst snd do_exit set_do_exit].
  repeat split.
  rewrite fold_right_app. cbn [fold_right].
  assert (G : forall a l, fold_right Z.add a l = fold_right Z.add 0 l + a).
  { intros a l. induction l as [|x l IHl]; cbn [fold_right]; lia. }
  rewrite G, sum_repeat. lia.
Qed.

Lemma sync_budget_cuts_last_read_witness :
  fst (fst (sync_loop 512
              (repeat (full_round 512) 3 ++ full_round 512 :: [])
              (set_bytes_to_read 2000 globals_at_start)))
  = SyncShortRead.
Proof.
  refine (proj1 (sync_budget_cuts_last_read 512 3 464 []
                   (set_bytes_to_read 2000 globals_at_start)
                   _ eq_refl _ eq_refl _));
    first [split; reflexivity | reflexivity].
Defined.

(** Without a budget every full round is read and written whole. *)
Lemma sync_no_budget (S0 : Z) (j : nat) :
  forall g,
    0 < S0 < 2 ^ 31 -> do_exit g = 0 -> bytes_to_read g = 0 ->
    sync_loop S0 (repeat (full_round S0) j) g = (SyncRunning, g, repeat S0 j).
Proof.
  induction j as [|j IH]; intros g HS Hx Hb.
  - cbn [repeat]. rewrite sync_loop_nil, Hx. reflexivity.
  - cbn [repeat]. rewrite sync_full_round_step by (try assumption; now left).
    rewrite Hb. change (0 <? 0) with false. cbv iota.
    rewrite IH by assumption. reflexivity.
Qed.

(** X15: the synchronous loop with a byte budget of a whole number of
    blocks.  After the last of them the budget is zero, which means no
    limit, and the exit flag is down: the loop goes on, and every further
    block is written whole. *)
Theorem sync_budget_met_exactly_is_lifted (S0 : Z) (q j : nat)
    (g : globals) :
  0 < S0 < 2 ^ 31 -> do_exit g = 0 -> (0 < q)%nat ->
  bytes_to_read g = Z.of_nat q * S0 -> bytes_to_read g < 2 ^ 64 ->
  let r := sync_loop S0 (repeat (full_round S0) q ++ repeat (full_round S0) j)
             g in
  fst (fst r) = SyncRunning /\
  snd r = repeat S0 q ++ repeat S0 j /\
  fold_right Z.add 0 (snd r) = bytes_to_read g + Z.of_nat j * S0 /\
  do_exit (snd (fst r)) = 0 /\ bytes_to_read (snd (fst r)) = 0.
Proof.
  intros HS Hx Hq Hb Hlt. cbv zeta.
  destruct (sync_full_rounds S0 q g (repeat (full_round S0) j) 0 HS Hx
              ltac:(lia) ltac:(lia) Hlt) as (g' & E & Hd & Hb').
  rewrite E, sync_no_budget by assumption. cbn [fst snd].
  repeat split; try assumption.
  rewrite <- repeat_app, sum_repeat, Nat2Z.inj_add. lia.
Qed.

Lemma sync_budget_met_exactly_is_lifted_witness :
  snd (sync_loop 512 (repeat (full_round 512) 2 ++ repeat (full_round 512) 3)
         (set_bytes_to_read 1024 globals_at_start))
  = repeat 512 2 ++ repeat 512 3.
Proof.
  refine (proj1 (proj2
    (sync_budget_met_exactly_is_lifted 512 2 3
       (set_bytes_to_read 1024 globals_at_start)
       _ eq_refl _ eq_refl _)));
    first [split; reflexivity | reflexivity | lia].
Defined.

(* ================================================================== *)
(** * Gain control as a whole *)
(* ================================================================== *)

(** ** Pairs of magnitude zero in the estimator *)











(** ** The accumulator between deliveries and wakes *)






































